(** * Rate limiter and backing cache of [services/rate_limiter.py] and
    [services/cache_service.py]

    A shallow embedding of the quota subsystem: the cache service with its
    two backends, the three checking strategies, the policy tables, the
    identifier derivation and the FastAPI dependency.

    Conventions of the embedding.
    - Python [int] is [Z]; a [float] is the rational [Q] it stands for, and
      [time.time()] returns one. The two products of the token bucket are
      computed as Python computes them, in binary64: each operation returns
      its exact result rounded to the nearest number of 53 significant
      bits, a tie going to the even one ([binary64] below). The exponent
      range is not bounded, so the [OverflowError] of Python beyond
      [1.8e308] has no counterpart, and no number is flushed below
      [2.2e-308]. The sums [now + retry_after] and [now + window], whose
      [int] is a reset time, are exact.
    - A check runs at one instant: [time.time()] of the limiter and
      [datetime.utcnow()] of the in-memory cache read the same clock value.
    - A Python exception that escapes a function is the [Raise] outcome.
    - What the Redis client does when the server is unreachable is not in
      the repository: a failing call is an input of the model (the flags
      of a check's [world]), and the [except] branches of [RedisCache] turn it into
      [None], [False] or [0] and a [logger.error] line. *)

From Stdlib Require Import ZArith QArith Qround Qminmax Lia Lqa Field List Ascii.
From Stdlib Require Floats Uint63.
From stdpp Require Import base option gmap strings pretty.
Import ListNotations.

Close Scope Q_scope.
Open Scope Z_scope.

(** ** Python helpers *)

(** [int(x)] on a float: truncation toward zero. *)
Definition py_int (x : Q) : Z := Z.quot (Qnum x) (Zpos (Qden x)).

Definition Qlt_bool (x y : Q) : bool :=
  Qnum x * Zpos (Qden y) <? Qnum y * Zpos (Qden x).

(** [2 ** e] for an exponent of either sign. *)
Definition pow2 (e : Z) : Q :=
  if 0 <=? e then inject_Z (2 ^ e) else (1 # Z.to_pos (2 ^ (- e)))%Q.

(** The integer nearest to [n / d], for [0 <= n] and [0 < d]; half way
    between two integers it is the even one. *)
Definition round_half_even (n d : Z) : Z :=
  let q := n `div` d in
  let r := n `mod` d in
  if 2 * r <? d then q
  else if d <? 2 * r then q + 1
  else if Z.even q then q else q + 1.

(** [p / q], for [0 < p] and [0 < q], rounded to 53 significant bits: the
    exponent [e] is the one for which [p / q / 2 ** e] lies from [2 ** 52]
    to [2 ** 53], and that mantissa is rounded to an integer. *)
Definition round53 (p q : Z) : Q :=
  let e0 := Z.log2 p - Z.log2 q - 53 in
  let n0 := p * 2 ^ Z.max 0 (- e0) in
  let d0 := q * 2 ^ Z.max 0 e0 in
  let e := if n0 <? 2 ^ 53 * d0 then e0 else e0 + 1 in
  let n := p * 2 ^ Z.max 0 (- e) in
  let d := q * 2 ^ Z.max 0 e in
  (inject_Z (round_half_even n d) * pow2 e)%Q.

(** The result of a float operation whose exact result is [x]: the nearest
    binary64 number (IEEE 754 round-to-nearest-even, which is what CPython's
    [float] arithmetic, [int / int] and [float(int)] do). *)
Definition binary64 (x : Q) : Q :=
  match Qnum x with
  | Z0 => 0%Q
  | Zpos p => round53 (Zpos p) (Zpos (Qden x))
  | Zneg p => (- round53 (Zpos p) (Zpos (Qden x)))%Q
  end.

(** Half the gap between 1 and the next binary64 number, and a bound on
    what three roundings in a row can do to a product. *)
Definition unit_roundoff : Q := (1 # 2 ^ 53)%Q.

Definition rounding_slack : Q := (1 # 2 ^ 51)%Q.

(** The binary64 numbers of the Rocq kernel, which are those of the
    processor: the value of a finite one, the float of an integer below
    [2 ** 63], and the product [n / 2 ** k * (a / b)] as the machine computes
    it. They are what [binary64] is compared with. *)
Definition Q_of_float (f : PrimFloat.float) : option Q :=
  match FloatOps.Prim2SF f with
  | SpecFloat.S754_zero _ => Some 0%Q
  | SpecFloat.S754_finite s m e =>
      let v := (inject_Z (Zpos m) * pow2 e)%Q in
      Some (if s then (- v)%Q else v)
  | _ => None
  end.

Definition float_of_Z (z : Z) : PrimFloat.float :=
  PrimFloat.of_uint63 (Uint63.of_Z z).

Definition machine_product (n k a b : Z) : option Q :=
  Q_of_float
    (PrimFloat.mul (PrimFloat.div (float_of_Z n) (float_of_Z (2 ^ k)))
                   (PrimFloat.div (float_of_Z a) (float_of_Z b))).

(** [str.isspace] on the code points below 256 (header values are decoded
    as latin-1): TAB..CR, FS..US, space, NEL and NBSP. *)
Definition is_space (c : Ascii.ascii) : bool :=
  let n := Ascii.N_of_ascii c in
  ((9 <=? n) && (n <=? 13) || (28 <=? n) && (n <=? 32)
   || (n =? 133) || (n =? 160))%N.

Fixpoint lstrip (s : string) : string :=
  match s with
  | String c r => if is_space c then lstrip r else s
  | EmptyString => EmptyString
  end.

Definition strip (s : string) : string :=
  String.rev (lstrip (String.rev (lstrip s))).

(** [s.split(',')[0]]: the text before the first comma. *)
Fixpoint split_comma_first (s : string) : string :=
  match s with
  | String c r =>
      if Ascii.eqb c ","%char then EmptyString else String c (split_comma_first r)
  | EmptyString => EmptyString
  end.

(** Truthiness of a [str]. *)
Definition nonempty (s : string) : bool :=
  match s with EmptyString => false | _ => true end.

(** ** Exceptions and outcomes *)

Record HTTPDetail := {
  error : string;
  message : string;
  detail_retry_after : option Z;
  detail_reset_time : Z
}.

Inductive exn :=
| KeyError (key : string)
| TypeError
| ValueError
| ZeroDivisionError
| HTTPException (status_code : Z) (detail : HTTPDetail)
    (headers : list (string * string)).

Inductive outcome (A : Type) :=
| Ok (a : A)
| Raise (e : exn).
Arguments Ok {A} a.
Arguments Raise {A} e.

#[global] Instance outcome_ret : MRet outcome := fun _ a => Ok a.
#[global] Instance outcome_bind : MBind outcome := fun _ _ f m =>
  match m with Ok a => f a | Raise e => Raise e end.

(** ** The cache service ([services/cache_service.py]) *)

(** The dict [{"tokens": .., "last_refill": ..}] of the token bucket. The
    limiter only ever puts whole numbers of tokens in it. *)
Record bucket := Bucket { tokens : Z; last_refill : Q }.

(** What the limiter keeps in the cache: a counter, a list of timestamps,
    or a bucket. *)
Inductive value :=
| VInt (n : Z)
| VList (ts : list Z)
| VBucket (b : bucket).

Record entry := Entry { entry_value : value; expires_at : Q }.

Inductive backend := RedisCache | InMemoryCache.

(** The [logger.error] lines of the [except] branches of [RedisCache]. *)
Inductive log_line :=
| FailedGet (key : string)
| FailedSet (key : string)
| FailedDelete (key : string)
| FailedIncrement (key : string).

Record CacheService := {
  current_cache : backend;
  data : gmap string entry;
  log : list log_line
}.

(** One check's surroundings: the clock, and whether the Redis client
    raises in the read and in the write the check issues. *)
Record world := {
  now : Q;
  get_fails : bool;
  write_fails : bool
}.

Definition with_data (c : CacheService) (d : gmap string entry) : CacheService :=
  {| current_cache := current_cache c; data := d; log := log c |}.

Definition with_log (c : CacheService) (l : log_line) : CacheService :=
  {| current_cache := current_cache c; data := data c; log := log c ++ [l] |}.

(** An entry is readable strictly before its expiry. *)
Definition live (t : Q) (e : entry) : bool := Qlt_bool t (expires_at e).

Definition after (t : Q) (ttl : Z) : Q := (t + inject_Z ttl)%Q.

(** [InMemoryCache.get]: an expired entry is deleted and reads as absent. *)
Definition InMemoryCache_get (t : Q) (key : string) (c : CacheService)
  : option value * CacheService :=
  match data c !! key with
  | Some e =>
      if live t e then (Some (entry_value e), c)
      else (None, with_data c (delete key (data c)))
  | None => (None, c)
  end.

(** [InMemoryCache.set] *)
Definition InMemoryCache_set (t : Q) (key : string) (v : value) (ttl : Z)
    (c : CacheService) : bool * CacheService :=
  (true, with_data c (<[key := Entry v (after t ttl)]> (data c))).

(** [InMemoryCache.delete]: no expiry test. *)
Definition InMemoryCache_delete (key : string) (c : CacheService)
  : bool * CacheService :=
  match data c !! key with
  | Some _ => (true, with_data c (delete key (data c)))
  | None => (false, c)
  end.

(** The server side of Redis: a key whose time to live has run out is
    absent. *)
Definition redis_lookup (t : Q) (key : string) (c : CacheService) : option value :=
  match data c !! key with
  | Some e => if live t e then Some (entry_value e) else None
  | None => None
  end.

(** [RedisCache.get] *)
Definition RedisCache_get (fails : bool) (t : Q) (key : string)
    (c : CacheService) : option value * CacheService :=
  if fails then (None, with_log c (FailedGet key))
  else (redis_lookup t key c, c).

(** [RedisCache.set]: SETEX refuses a time to live that is not positive. *)
Definition RedisCache_set (fails : bool) (t : Q) (key : string) (v : value)
    (ttl : Z) (c : CacheService) : bool * CacheService :=
  if fails || (ttl <=? 0) then (false, with_log c (FailedSet key))
  else (true, with_data c (<[key := Entry v (after t ttl)]> (data c))).

(** [RedisCache.delete] *)
Definition RedisCache_delete (fails : bool) (t : Q) (key : string)
    (c : CacheService) : bool * CacheService :=
  if fails then (false, with_log c (FailedDelete key))
  else match redis_lookup t key c with
       | Some _ => (true, with_data c (delete key (data c)))
       | None => (false, c)
       end.

(** [RedisCache.increment]: INCR and EXPIRE in one pipeline. INCR on a
    value that is not an integer is an error of the pipeline (EXPIRE still
    applies), which the [except] branch turns into [0]. *)
Definition RedisCache_increment (fails : bool) (t : Q) (key : string)
    (amount : Z) (ttl : Z) (c : CacheService) : Z * CacheService :=
  if fails then (0, with_log c (FailedIncrement key))
  else match redis_lookup t key c with
       | None =>
           (amount,
            with_data c (<[key := Entry (VInt amount) (after t ttl)]> (data c)))
       | Some (VInt n) =>
           (n + amount,
            with_data c (<[key := Entry (VInt (n + amount)) (after t ttl)]> (data c)))
       | Some v =>
           (0, with_log
                 (with_data c (<[key := Entry v (after t ttl)]> (data c)))
                 (FailedIncrement key))
       end.

(** [CacheService.get], [.set], [.delete]: dispatch on [current_cache]. *)
Definition cache_get (w : world) (key : string) (c : CacheService)
  : option value * CacheService :=
  match current_cache c with
  | RedisCache => RedisCache_get (get_fails w) (now w) key c
  | InMemoryCache => InMemoryCache_get (now w) key c
  end.

Definition cache_set (w : world) (key : string) (v : value) (ttl : Z)
    (c : CacheService) : bool * CacheService :=
  match current_cache c with
  | RedisCache => RedisCache_set (write_fails w) (now w) key v ttl c
  | InMemoryCache => InMemoryCache_set (now w) key v ttl c
  end.

Definition cache_delete (w : world) (key : string) (c : CacheService)
  : bool * CacheService :=
  match current_cache c with
  | RedisCache => RedisCache_delete (write_fails w) (now w) key c
  | InMemoryCache => InMemoryCache_delete key c
  end.

(** [current + 1] where [current = (await self.get(cache_key)) or 0]. *)
Definition or_zero_plus_one (got : option value) : outcome Z :=
  match got with
  | None => Ok 1
  | Some (VInt n) => Ok (n + 1)
  | Some (VList []) => Ok 1
  | Some (VList (_ :: _)) => Raise TypeError
  | Some (VBucket _) => Raise TypeError
  end.

(** [CacheService.increment_rate_limit]: both branches prefix the key they
    are given with [rate_limit:]. *)
Definition increment_rate_limit (w : world) (identifier : string) (window : Z)
    (c : CacheService) : outcome (Z * CacheService) :=
  let cache_key := "rate_limit:" +:+ identifier in
  match current_cache c with
  | RedisCache =>
      Ok (RedisCache_increment (write_fails w) (now w) cache_key 1 window c)
  | InMemoryCache =>
      let '(got, c1) := cache_get w cache_key c in
      new_value ← or_zero_plus_one got;
      let '(_, c2) := cache_set w cache_key (VInt new_value) window c1 in
      Ok (new_value, c2)
  end.

(** ** The rate limiter ([services/rate_limiter.py]) *)

Inductive RateLimitStrategy := FIXED_WINDOW | SLIDING_WINDOW | TOKEN_BUCKET.

Record RateLimit := {
  requests : Z;
  window : Z;
  strategy : RateLimitStrategy;
  burst : option Z
}.

Record RateLimitResult := {
  allowed : bool;
  remaining : Z;
  reset_time : Z;
  retry_after : option Z
}.

Record RateLimiter := {
  default_limits : gmap string RateLimit;
  premium_limits : gmap string RateLimit
}.

Definition limit (n w : Z) : RateLimit :=
  {| requests := n; window := w; strategy := FIXED_WINDOW; burst := None |}.

(** [RateLimiter.__init__] *)
Definition rate_limiter : RateLimiter := {|
  default_limits := list_to_map
    [ ("global", limit 1000 3600); ("per_ip", limit 100 3600);
      ("per_user", limit 500 3600); ("upload", limit 10 3600);
      ("ai_query", limit 50 3600); ("auth", limit 5 300) ];
  premium_limits := list_to_map
    [ ("global", limit 10000 3600); ("per_ip", limit 1000 3600);
      ("per_user", limit 5000 3600); ("upload", limit 100 3600);
      ("ai_query", limit 500 3600); ("auth", limit 10 300) ]
|}.

(** [(await cache_service.get(window_key)) or 0], then compared with an
    [int]: a list or a dict that is not empty cannot be compared. *)
Definition count_or_zero (got : option value) : outcome Z :=
  match got with
  | None => Ok 0
  | Some (VInt n) => Ok n
  | Some (VList []) => Ok 0
  | Some (VList (_ :: _)) => Raise TypeError
  | Some (VBucket _) => Raise TypeError
  end.

(** [RateLimiter._check_fixed_window] *)
Definition _check_fixed_window (w : world) (cache_key : string)
    (rate_limit : RateLimit) (c : CacheService)
  : outcome (RateLimitResult * CacheService) :=
  let current_time := py_int (now w) in
  if window rate_limit =? 0 then Raise ZeroDivisionError else
  let window_start := (current_time `div` window rate_limit) * window rate_limit in
  let window_key := cache_key +:+ ":" +:+ pretty window_start in
  let '(got, c1) := cache_get w window_key c in
  current_count ← count_or_zero got;
  if current_count >=? requests rate_limit then
    let reset_time := window_start + window rate_limit in
    let retry_after := reset_time - current_time in
    Ok ({| allowed := false; remaining := 0; reset_time := reset_time;
           retry_after := Some retry_after |}, c1)
  else
    '(new_count, c2) ← increment_rate_limit w window_key (window rate_limit) c1;
    let remaining := Z.max 0 (requests rate_limit - new_count) in
    let reset_time := window_start + window rate_limit in
    Ok ({| allowed := true; remaining := remaining; reset_time := reset_time;
           retry_after := None |}, c2).

(** [(await cache_service.get(timestamps_key)) or []], then iterated. *)
Definition timestamps_or_empty (got : option value) : outcome (list Z) :=
  match got with
  | None => Ok []
  | Some (VList ts) => Ok ts
  | Some (VInt n) => if n =? 0 then Ok [] else Raise TypeError
  | Some (VBucket _) => Raise TypeError
  end.

(** [min(xs)]: [ValueError] on the empty list. *)
Definition py_min (xs : list Z) : outcome Z :=
  match xs with
  | [] => Raise ValueError
  | x :: r => Ok (fold_left Z.min r x)
  end.

(** [RateLimiter._check_sliding_window] *)
Definition _check_sliding_window (w : world) (cache_key : string)
    (rate_limit : RateLimit) (c : CacheService)
  : outcome (RateLimitResult * CacheService) :=
  let current_time := py_int (now w) in
  let window_start := current_time - window rate_limit in
  let timestamps_key := cache_key +:+ ":timestamps" in
  let '(got, c1) := cache_get w timestamps_key c in
  timestamps ← timestamps_or_empty got;
  let recent_timestamps := List.filter (fun ts => window_start <? ts) timestamps in
  if Z.of_nat (length recent_timestamps) >=? requests rate_limit then
    oldest_timestamp ← py_min recent_timestamps;
    let retry_after := oldest_timestamp + window rate_limit - current_time in
    Ok ({| allowed := false; remaining := 0;
           reset_time := oldest_timestamp + window rate_limit;
           retry_after := Some (Z.max 1 retry_after) |}, c1)
  else
    let recent_timestamps := recent_timestamps ++ [current_time] in
    let '(_, c2) :=
      cache_set w timestamps_key (VList recent_timestamps) (window rate_limit) c1 in
    let remaining := requests rate_limit - Z.of_nat (length recent_timestamps) in
    Ok ({| allowed := true; remaining := remaining;
           reset_time := current_time + window rate_limit;
           retry_after := None |}, c2).

(** [(await cache_service.get(bucket_key)) or {...}], then indexed by
    ["last_refill"]. The flag says whether the dict is the one the cache
    returned. *)
Definition bucket_or_default (got : option value) (fresh : bucket)
  : outcome (bucket * bool) :=
  match got with
  | None => Ok (fresh, false)
  | Some (VBucket b) => Ok (b, true)
  | Some (VInt n) => if n =? 0 then Ok (fresh, false) else Raise TypeError
  | Some (VList []) => Ok (fresh, false)
  | Some (VList (_ :: _)) => Raise TypeError
  end.

(** [int(time_elapsed * (rate_limit.requests / rate_limit.window))], where
    [time_elapsed] is the float difference of the two clock readings (the
    argument is their exact difference), [/] is the true division of two
    [int]s and [*] the product of two floats. *)
Definition tokens_to_add (rate_limit : RateLimit) (time_elapsed : Q) : Z :=
  py_int (binary64
            (binary64 time_elapsed *
             binary64 (inject_Z (requests rate_limit) /
                       inject_Z (window rate_limit)))%Q).

(** [rate_limit.burst or rate_limit.requests] *)
Definition max_tokens (rate_limit : RateLimit) : Z :=
  match burst rate_limit with
  | Some b => if b =? 0 then requests rate_limit else b
  | None => requests rate_limit
  end.

(** Lines 160-167 of [_check_token_bucket]: the refill. *)
Definition refill (rate_limit : RateLimit) (current_time : Q) (b : bucket) : bucket :=
  let time_elapsed := (current_time - last_refill b)%Q in
  {| tokens := Z.min (max_tokens rate_limit)
                 (tokens b + tokens_to_add rate_limit time_elapsed);
     last_refill := current_time |}.

(** [int((1 - tokens) * (rate_limit.window / rate_limit.requests))]: the
    [int] on the left is converted to a float, [/] is the true division of
    two [int]s and [*] the product of two floats. *)
Definition retry_after_of (rate_limit : RateLimit) (tokens_now : Z) : Z :=
  py_int (binary64
            (binary64 (inject_Z (1 - tokens_now)) *
             binary64 (inject_Z (window rate_limit) /
                       inject_Z (requests rate_limit)))%Q).

(** Item assignment on the dict that [cache_service.get] returned: with the
    in-memory cache it is the stored object itself, so the entry changes
    (its expiry does not); the Redis backend hands out a parsed copy. *)
Definition assign_in_place (key : string) (stored : bool) (b : bucket)
    (c : CacheService) : CacheService :=
  match current_cache c with
  | InMemoryCache =>
      if stored
      then with_data c (alter (fun e => Entry (VBucket b) (expires_at e)) key (data c))
      else c
  | RedisCache => c
  end.

(** [RateLimiter._check_token_bucket] *)
Definition _check_token_bucket (w : world) (cache_key : string)
    (rate_limit : RateLimit) (c : CacheService)
  : outcome (RateLimitResult * CacheService) :=
  let current_time := now w in
  let bucket_key := cache_key +:+ ":bucket" in
  let '(got, c1) := cache_get w bucket_key c in
  '(bucket_data, stored) ←
    bucket_or_default got
      {| tokens := requests rate_limit; last_refill := current_time |};
  if window rate_limit =? 0 then Raise ZeroDivisionError else
  let bucket_data := refill rate_limit current_time bucket_data in
  let c2 := assign_in_place bucket_key stored bucket_data c1 in
  if tokens bucket_data <? 1 then
    if requests rate_limit =? 0 then Raise ZeroDivisionError else
    let retry_after := retry_after_of rate_limit (tokens bucket_data) in
    Ok ({| allowed := false; remaining := 0;
           reset_time := py_int (current_time + inject_Z retry_after)%Q;
           retry_after := Some retry_after |}, c2)
  else
    let bucket_data :=
      {| tokens := tokens bucket_data - 1; last_refill := last_refill bucket_data |} in
    let '(_, c3) :=
      cache_set w bucket_key (VBucket bucket_data) (window rate_limit * 2) c2 in
    Ok ({| allowed := true; remaining := tokens bucket_data;
           reset_time := py_int (current_time + inject_Z (window rate_limit))%Q;
           retry_after := None |}, c3).

(** Lines 72-73 of [check_rate_limit]: the configuration that is checked.
    The fallback argument of [dict.get] is evaluated first. *)
Definition rate_limit_for (self : RateLimiter) (limit_type : string)
    (is_premium : bool) : outcome RateLimit :=
  let limits := if is_premium then premium_limits self else default_limits self in
  match default_limits self !! "global" with
  | None => Raise (KeyError "global")
  | Some fallback => Ok (default fallback (limits !! limit_type))
  end.

(** Lines 77-84 of [check_rate_limit]: the dispatch on the strategy. *)
Definition check_with (w : world) (cache_key : string) (rate_limit : RateLimit)
    (c : CacheService) : outcome (RateLimitResult * CacheService) :=
  match strategy rate_limit with
  | FIXED_WINDOW => _check_fixed_window w cache_key rate_limit c
  | SLIDING_WINDOW => _check_sliding_window w cache_key rate_limit c
  | TOKEN_BUCKET => _check_token_bucket w cache_key rate_limit c
  end.

(** [RateLimiter.check_rate_limit] *)
Definition check_rate_limit (self : RateLimiter) (w : world) (identifier : string)
    (limit_type : string) (is_premium : bool) (c : CacheService)
  : outcome (RateLimitResult * CacheService) :=
  rate_limit ← rate_limit_for self limit_type is_premium;
  let cache_key := "rate_limit:" +:+ limit_type +:+ ":" +:+ identifier in
  check_with w cache_key rate_limit c.

(** [RateLimiter.reset_rate_limit] *)
Definition reset_rate_limit (w : world) (identifier : string) (limit_type : string)
    (c : CacheService) : bool * CacheService :=
  let cache_key := "rate_limit:" +:+ limit_type +:+ ":" +:+ identifier in
  cache_delete w cache_key c.

(** The part of a Starlette [Request] the limiter reads: the header values
    by name and the peer host of [request.client]. *)
Record Request := {
  request_headers : gmap string string;
  client : option string
}.

(** A header or user id that is present and not empty. *)
Definition if_truthy (o : option string) : option string :=
  match o with
  | Some s => if nonempty s then Some s else None
  | None => None
  end.

(** [RateLimiter.get_identifier_from_request] *)
Definition get_identifier_from_request (request : Request)
    (user_id : option string) : string :=
  match if_truthy user_id with
  | Some uid => "user:" +:+ uid
  | None =>
    match if_truthy (request_headers request !! "X-Forwarded-For") with
    | Some forwarded_for => "ip:" +:+ strip (split_comma_first forwarded_for)
    | None =>
      match if_truthy (request_headers request !! "X-Real-IP") with
      | Some real_ip => "ip:" +:+ real_ip
      | None =>
          let client_ip :=
            match client request with Some host => host | None => "unknown" end in
          "ip:" +:+ client_ip
      end
    end
  end.

(** [if result.retry_after:] *)
Definition retry_after_header (r : RateLimitResult) : list (string * string) :=
  match retry_after r with
  | Some n => if n =? 0 then [] else [("Retry-After", pretty n)]
  | None => []
  end.

(** [rate_limit_dependency] *)
Definition rate_limit_dependency (self : RateLimiter) (w : world)
    (request : Request) (limit_type : string) (user_id : option string)
    (is_premium : bool) (c : CacheService)
  : outcome (RateLimitResult * CacheService) :=
  let identifier := get_identifier_from_request request user_id in
  '(result, c1) ← check_rate_limit self w identifier limit_type is_premium c;
  if negb (allowed result) then
    match default_limits self !! limit_type with
    | None => Raise (KeyError limit_type)
    | Some shown =>
        let headers :=
          [ ("X-RateLimit-Limit", pretty (requests shown));
            ("X-RateLimit-Remaining", pretty (remaining result));
            ("X-RateLimit-Reset", pretty (reset_time result)) ]
          ++ retry_after_header result in
        Raise (HTTPException 429
                 {| error := "Rate limit exceeded";
                    message := "Too many requests for " +:+ limit_type;
                    detail_retry_after := retry_after result;
                    detail_reset_time := reset_time result |}
                 headers)
    end
  else Ok (result, c1).

(** A run of calls, each at its own instant, threading the cache. *)
Fixpoint run_checks
    (check : world → CacheService → outcome (RateLimitResult * CacheService))
    (ws : list world) (c : CacheService)
  : outcome (list RateLimitResult * CacheService) :=
  match ws with
  | [] => Ok ([], c)
  | w :: rest =>
      '(r, c1) ← check w c;
      '(rs, c2) ← run_checks check rest c1;
      Ok (r :: rs, c2)
  end.

Definition empty_cache (b : backend) : CacheService :=
  {| current_cache := b; data := ∅; log := [] |}.

Definition at_time (t : Q) : world :=
  {| now := t; get_fails := false; write_fails := false |}.

(** The value of an outcome, without the cache. *)
Definition result_of {A : Type} (o : outcome (A * CacheService)) : outcome A :=
  match o with Ok (a, _) => Ok a | Raise e => Raise e end.


#[global] Arguments py_int : simpl never.
#[global] Arguments refill : simpl never.
#[global] Arguments max_tokens : simpl never.
#[global] Arguments tokens_to_add : simpl never.
#[global] Arguments retry_after_of : simpl never.

(** A [QuotaConfig] as the data model has it: a positive limit, a
    positive window, and a burst that is positive when given. *)
Definition well_formed (rate_limit : RateLimit) : Prop :=
  0 < requests rate_limit ∧ 0 < window rate_limit ∧
  ∀ b, burst rate_limit = Some b → 0 < b.

(** The key under which [_check_fixed_window] reads the count. *)
Definition window_key (w : world) (cache_key : string) (rate_limit : RateLimit)
  : string :=
  cache_key +:+ ":" +:+
  pretty (py_int (now w) `div` window rate_limit * window rate_limit).

(** ** The token bucket in the specification's words

    "Add [elapsed × rate] tokens capped at [burst or limit]" and "deny with
    [retry_after = ceil((1 - tokens) / rate)]", with [rate = limit / window],
    in exact arithmetic. These two are not taken from the code; they are what
    the code is compared with. *)
Definition spec_rate (rate_limit : RateLimit) : Q :=
  (inject_Z (requests rate_limit) / inject_Z (window rate_limit))%Q.



(** ** The identifier in the specification's words

    "The first address in a forwarded-for chain", a value that is missing,
    and a text without the white space around it. These are not taken from
    the code; they are what the result of [get_identifier_from_request] is
    compared with. *)

(** A user id or a header that is missing or empty. *)
Definition absent (o : option string) : Prop := o = None ∨ o = Some "".

(** [first] is the first element of the comma-separated [chain]: the chain
    is [first] alone or [first] followed by a comma and the rest, and
    [first] holds no comma. *)
Definition first_of_chain (chain first : string) : Prop :=
  (chain = first ∨ ∃ rest, chain = first +:+ "," +:+ rest) ∧
  ∀ a b, first ≠ a +:+ "," +:+ b.

(** Every character of [s] is white space. *)
Definition all_space (s : string) : Prop :=
  ∀ a ch b, s = a +:+ String ch b → is_space ch = true.

(** [address] is [text] without the white space at its two ends. *)
Definition trimmed_of (text address : string) : Prop :=
  (∃ lead trail, text = lead +:+ address +:+ trail ∧
                 all_space lead ∧ all_space trail) ∧
  (∀ ch rest, address = String ch rest → is_space ch = false) ∧
  (∀ init ch, address = init +:+ String ch "" → is_space ch = false).

(** ** Scenarios *)

(** [reset_rate_limit] and then at once [check_rate_limit], for the same
    identifier and class. *)
Definition reset_then_check (self : RateLimiter) (w : world)
    (identifier limit_type : string) (is_premium : bool) (c : CacheService)
  : outcome (RateLimitResult * CacheService) :=
  let '(_, c1) := reset_rate_limit w identifier limit_type c in
  check_rate_limit self w identifier limit_type is_premium c1.

(** The policy of the specification's scenario: 3 requests a minute. *)
Definition three_per_minute (s : RateLimitStrategy) : RateLimit :=
  {| requests := 3; window := 60; strategy := s; burst := None |}.

(** The anonymous client 10.0.0.1 on a route of class "user". *)
Definition anonymous_request : Request :=
  {| request_headers := ∅; client := Some "10.0.0.1" |}.

(** A cache in which the counter that a premium check of class "upload"
    reads for [user:alice] in the window starting at 0 stands at 100. *)
Definition upload_counter_at_100 : CacheService :=
  {| current_cache := RedisCache;
     data := {[ "rate_limit:upload:user:alice:0" := Entry (VInt 100) 3600 ]};
     log := [] |}.

(** A token bucket of [n] requests per [w] seconds, without burst. *)
Definition bucket_of (n w : Z) : RateLimit :=
  {| requests := n; window := w; strategy := TOKEN_BUCKET; burst := None |}.


(** A drained bucket, last refilled at second 100. *)
Definition drained_at_100 : bucket := {| tokens := 0; last_refill := 100 |}.

(** A Redis cache that holds that bucket under the key of ["k"]. *)
Definition cache_with_drained_bucket : CacheService :=
  {| current_cache := RedisCache;
     data := {[ "k:bucket" := Entry (VBucket drained_at_100) 200 ]};
     log := [] |}.

(** A Redis cache whose sliding window of ["k"] holds three requests made
    at second 1000. *)
Definition cache_with_full_window : CacheService :=
  {| current_cache := RedisCache;
     data := {[ "k:timestamps" := Entry (VList [1000; 1000; 1000]) 1060 ]};
     log := [] |}.

(** An in-memory cache that holds the counter of [user:alice] for class
    "auth" in the window starting at 900, and an entry under the very key
    that [reset_rate_limit] deletes. *)
Definition cache_with_reset_key : CacheService :=
  {| current_cache := InMemoryCache;
     data := {[ "rate_limit:auth:user:alice" := Entry (VInt 7) 2000;
                "rate_limit:rate_limit:auth:user:alice:900" := Entry (VInt 1) 1300 ]};
     log := [] |}.

(** The Redis client raises in every call of the check. *)
Definition redis_down (t : Q) : world :=
  {| now := t; get_fails := true; write_fails := true |}.

(** ** Conditions on a run of checks *)

(** No call of the Redis client raises during the check (the in-memory
    cache has no failing call). *)
Definition healthy (w : world) (c : CacheService) : Prop :=
  current_cache c = InMemoryCache ∨ (get_fails w = false ∧ write_fails w = false).

(** The same instant and read, with the write failing or not. *)
Definition with_write_fails (fails : bool) (w : world) : world :=
  {| now := now w; get_fails := get_fails w; write_fails := fails |}.

(** The key the fixed window reads is absent, and the key it increments
    holds a counter if anything. *)
Definition read_key_unwritten (wk : string) (c : CacheService) : Prop :=
  data c !! wk = None ∧
  ∀ e, data c !! ("rate_limit:" +:+ wk) = Some e → ∃ n, entry_value e = VInt n.

(** The state of the sliding window of [cache_key] after the checks of
    [done], the last one first. *)
Definition window_holds (cache_key : string) (rl : RateLimit) (done : list world)
    (c : CacheService) : Prop :=
  match done with
  | [] => data c !! (cache_key +:+ ":timestamps") = None
  | last :: _ =>
      data c !! (cache_key +:+ ":timestamps")
      = Some (Entry (VList (map (fun w => py_int (now w)) (rev done)))
                (after (now last) (window rl)))
  end.

(** The checks of [ws] fall in one window: every second of a check is in
    the window that ends at any other. *)
Definition one_window (rl : RateLimit) (ws : list world) : Prop :=
  ∀ w w', In w ws → In w' ws →
    (0 <= now w)%Q ∧ py_int (now w') - window rl < py_int (now w).

(** ** The rest of the cache service

    The methods of [services/cache_service.py] that the checks do not call.
    Payloads are taken from [value]; for these the JSON round trip of the
    Redis backend is the identity. *)

(** [InMemoryCache.exists]: [await self.get(key) is not None]; like [get] it
    drops an expired entry. *)
Definition InMemoryCache_exists (t : Q) (key : string) (c : CacheService)
  : bool * CacheService :=
  let '(got, c1) := InMemoryCache_get t key c in
  (match got with Some _ => true | None => false end, c1).

(** [InMemoryCache.clear] *)
Definition InMemoryCache_clear (c : CacheService) : bool * CacheService :=
  (true, with_data c ∅).

(** The list comprehension of [InMemoryCache._cleanup_expired]: the keys
    whose entry has [expires_at <= current_time]. *)
Definition expired_keys (t : Q) (c : CacheService) : list string :=
  map fst (List.filter (fun ke => Qle_bool (expires_at (snd ke)) t)
             (map_to_list (data c))).

(** One round of the loop of [InMemoryCache._cleanup_expired], without its
    sleep: each expired key is deleted in turn. *)
Definition cleanup_expired_round (t : Q) (c : CacheService) : CacheService :=
  with_data c (fold_left (fun d key => delete key d) (expired_keys t c) (data c)).

(** [RedisCache.exists]: EXISTS on the server; [False] when the client
    raises. The [logger.error] line of this [except] branch is not
    recorded: [log_line] lists those of get, set, delete and increment. *)
Definition RedisCache_exists (fails : bool) (t : Q) (key : string)
    (c : CacheService) : bool * CacheService :=
  if fails then (false, c)
  else (match redis_lookup t key c with Some _ => true | None => false end, c).

(** [RedisCache.clear]: FLUSHDB; [False] when the client raises (its
    [logger.error] line is not recorded either). *)
Definition RedisCache_clear (fails : bool) (c : CacheService)
  : bool * CacheService :=
  if fails then (false, c) else (true, with_data c ∅).

(** [CacheService.exists] and [CacheService.clear] *)
Definition cache_exists (w : world) (key : string) (c : CacheService)
  : bool * CacheService :=
  match current_cache c with
  | RedisCache => RedisCache_exists (get_fails w) (now w) key c
  | InMemoryCache => InMemoryCache_exists (now w) key c
  end.

Definition cache_clear (w : world) (c : CacheService) : bool * CacheService :=
  match current_cache c with
  | RedisCache => RedisCache_clear (write_fails w) c
  | InMemoryCache => InMemoryCache_clear c
  end.

(** [CacheService.cache_ai_response] and [get_cached_ai_response] *)
Definition cache_ai_response (w : world) (query_hash : string) (response : value)
    (ttl : Z) (c : CacheService) : bool * CacheService :=
  cache_set w ("ai_response:" +:+ query_hash) response ttl c.

Definition get_cached_ai_response (w : world) (query_hash : string)
    (c : CacheService) : option value * CacheService :=
  cache_get w ("ai_response:" +:+ query_hash) c.

(** [CacheService.cache_document_summary] and [get_cached_document_summary] *)
Definition cache_document_summary (w : world) (document_id : string)
    (summary : value) (ttl : Z) (c : CacheService) : bool * CacheService :=
  cache_set w ("summary:" +:+ document_id) summary ttl c.

Definition get_cached_document_summary (w : world) (document_id : string)
    (c : CacheService) : option value * CacheService :=
  cache_get w ("summary:" +:+ document_id) c.

(** [CacheService.cache_user_session] and [get_cached_user_session] *)
Definition cache_user_session (w : world) (user_id : string)
    (session_data : value) (ttl : Z) (c : CacheService) : bool * CacheService :=
  cache_set w ("session:" +:+ user_id) session_data ttl c.

Definition get_cached_user_session (w : world) (user_id : string)
    (c : CacheService) : option value * CacheService :=
  cache_get w ("session:" +:+ user_id) c.

(** [":".join(...)] *)
Fixpoint join_colon (parts : list string) : string :=
  match parts with
  | [] => ""
  | [a] => a
  | a :: rest => a +:+ ":" +:+ join_colon rest
  end.

(** [generate_cache_key]: the arguments are given as their [str]; the digest
    ([hashlib.md5(..).hexdigest()]) is not code of the repository and is a
    parameter. *)
Definition generate_cache_key (md5_hexdigest : string → string)
    (args : list string) : string :=
  md5_hexdigest (join_colon args).

(** ** The middleware and the decorator *)

(** The part of an ASGI scope that [RateLimitMiddleware] reads. *)
Record Scope := {
  scope_type : string;
  scope_path : string;
  scope_request : Request
}.

(** The JSON body of the middleware's rejection. *)
Record RejectionContent := {
  content_error : string;
  content_message : string;
  content_retry_after : option Z
}.

(** What [RateLimitMiddleware.__call__] does with one request: it hands it
    to the wrapped application, or answers by itself. When the check raised,
    the [except] branch logs and the application is called; the cache at
    that point is not tracked ([Raise] does not carry it). *)
Inductive MiddlewareOutcome :=
| AppCalled (c : CacheService)
| AppCalledAfterError (e : exn)
| Responded (status_code : Z) (content : RejectionContent)
    (headers : list (string * string)) (c : CacheService).

(** [str(result.retry_after) if result.retry_after else "60"] *)
Definition retry_after_or_60 (r : RateLimitResult) : string :=
  match retry_after r with
  | Some n => if n =? 0 then "60" else pretty n
  | None => "60"
  end.

(** [RateLimitMiddleware.__call__] *)
Definition RateLimitMiddleware_call (w : world) (scope : Scope)
    (c : CacheService) : MiddlewareOutcome :=
  if String.eqb (scope_type scope) "http" then
    if existsb (String.eqb (scope_path scope))
         ["/"; "/health"; "/docs"; "/openapi.json"]
    then AppCalled c
    else
      let identifier := get_identifier_from_request (scope_request scope) None in
      match check_rate_limit rate_limiter w identifier "global" false c with
      | Ok (result, c1) =>
          if negb (allowed result) then
            Responded 429
              {| content_error := "Rate limit exceeded";
                 content_message := "Too many requests";
                 content_retry_after := retry_after result |}
              [ ("X-RateLimit-Limit", "1000");
                ("X-RateLimit-Remaining", pretty (remaining result));
                ("X-RateLimit-Reset", pretty (reset_time result));
                ("Retry-After", retry_after_or_60 result) ]
              c1
          else AppCalled c1
      | Raise e => AppCalledAfterError e
      end
  else AppCalled c.

(** The [wrapper] that the decorator [rate_limit(limit_type, is_premium)]
    puts around [func]: [request] and [user_id] are the keyword arguments of
    those names, absent or given. *)
Definition rate_limit_wrapper {A : Type} (limit_type : string) (is_premium : bool)
    (w : world) (request : option Request) (user_id : option string)
    (func : CacheService → outcome (A * CacheService)) (c : CacheService)
  : outcome (A * CacheService) :=
  match request with
  | Some request =>
      '(_, c1) ← rate_limit_dependency rate_limiter w request limit_type
                   user_id is_premium c;
      func c1
  | None => func c
  end.

(** ** What the limiter leaves in the cache *)

(** Every key of the [rate_limit:] name space is one that
    [increment_rate_limit] wrote for the fixed window: it starts with
    [rate_limit:rate_limit:] and holds a counter. Keys of other name spaces
    are not constrained. *)
Definition limiter_keys_are_counters (d : gmap string entry) : Prop :=
  ∀ k e, d !! k = Some e → String.prefix "rate_limit:" k = true →
    String.prefix "rate_limit:rate_limit:" k = true ∧ ∃ n, entry_value e = VInt n.

(** A class name that is neither [rate_limit] nor starts with
    [rate_limit:]. *)
Definition ordinary_class (limit_type : string) : Prop :=
  String.prefix "rate_limit:" (limit_type +:+ ":") = false.

(** Checks that follow one another, the first one following [last], each
    sooner than the time in which the bucket gains one token, by more than
    the rounding of the float product can make up. *)
Fixpoint polls_faster_than_refill (rl : RateLimit) (last : Q) (ws : list world)
  : Prop :=
  match ws with
  | [] => True
  | w :: rest =>
      (last <= now w)%Q ∧
      ((now w - last) * inject_Z (requests rl) * (1 + rounding_slack)
       < inject_Z (window rl))%Q ∧
      polls_faster_than_refill rl (now w) rest
  end.

(** * Properties *)

(** ** Clock arithmetic *)

Lemma Qlt_bool_iff (x y : Q) : Qlt_bool x y = true ↔ (x < y)%Q.
Proof. unfold Qlt_bool, Qlt. apply Z.ltb_lt. Qed.

Lemma py_int_nonneg (x : Q) : (0 <= x)%Q → py_int x = Qfloor x.
Proof.
  destruct x as [n d]. unfold Qle, py_int, Qfloor. simpl. intros H.
  apply Z.quot_div_nonneg; lia.
Qed.


Lemma py_int_inject_Z (n : Z) : py_int (inject_Z n) = n.
Proof. unfold py_int. simpl. apply Z.quot_1_r. Qed.

(** Truncation stays within one of its argument. *)
Lemma py_int_bounds (x : Q) :
  (x - 1 < inject_Z (py_int x))%Q ∧ (inject_Z (py_int x) < x + 1)%Q.
Proof.
  destruct x as [n d]. unfold py_int, Qlt, Qminus, Qplus, Qopp, inject_Z. simpl.
  pose proof (Z.quot_rem' n (Z.pos d)) as Hqr.
  pose proof (Pos2Z.is_pos d) as Hd.
  destruct (Z.le_gt_cases 0 n) as [Hn|Hn].
  - pose proof (Z.rem_bound_pos n (Z.pos d) Hn Hd). nia.
  - assert (- Z.pos d < Z.rem n (Z.pos d) <= 0).
    { pose proof (Z.rem_opp_l n (Z.pos d) ltac:(lia)) as Ho.
      pose proof (Z.rem_bound_pos (- n) (Z.pos d) ltac:(lia) Hd). lia. }
    nia.
Qed.

Lemma py_int_le_self (x : Q) : (0 <= x)%Q → (inject_Z (py_int x) <= x)%Q.
Proof. intros H. rewrite (py_int_nonneg x H). apply Qfloor_le. Qed.

Lemma py_int_nonneg_result (x : Q) : (0 <= x)%Q → 0 <= py_int x.
Proof.
  destruct x as [n d]. unfold Qle, py_int. simpl. intros H.
  apply Z.quot_pos; lia.
Qed.


Lemma py_int_zero_elapsed (t q : Q) : py_int ((t - t) * q) = 0.
Proof.
  destruct t as [n d], q as [a b]. unfold py_int. simpl.
  replace ((n * Z.pos d + - n * Z.pos d) * a) with 0 by ring. reflexivity.
Qed.

(** ** Binary64 rounding *)

Lemma round_half_even_near (n d : Z) :
  0 <= n → 0 < d →
  0 <= round_half_even n d ∧
  2 * n - d <= 2 * (round_half_even n d * d) <= 2 * n + d.
Proof.
  intros Hn Hd. unfold round_half_even.
  pose proof (Z.div_mod n d ltac:(lia)) as Hdm.
  pose proof (Z.mod_pos_bound n d Hd) as Hmb.
  pose proof (Z.div_pos n d Hn Hd) as Hq.
  set (q := n `div` d) in *. set (r := n `mod` d) in *.
  assert (Hqd : q * d = n - r) by lia.
  destruct (2 * r <? d) eqn:E1; [apply Z.ltb_lt in E1; lia|].
  apply Z.ltb_ge in E1.
  destruct (d <? 2 * r) eqn:E2; [apply Z.ltb_lt in E2; lia|].
  apply Z.ltb_ge in E2.
  destruct (Z.even q); lia.
Qed.

Lemma scaled_mantissa (p q : Z) :
  0 < p → 0 < q →
  let e0 := Z.log2 p - Z.log2 q - 53 in
  let n0 := p * 2 ^ Z.max 0 (- e0) in
  let d0 := q * 2 ^ Z.max 0 e0 in
  let e := if n0 <? 2 ^ 53 * d0 then e0 else e0 + 1 in
  let n := p * 2 ^ Z.max 0 (- e) in
  let d := q * 2 ^ Z.max 0 e in
  0 < d ∧ 2 ^ 52 * d <= n.
Proof.
  intros Hp Hq. cbv zeta.
  pose proof (Z.log2_spec p Hp) as [Hp1 Hp2].
  pose proof (Z.log2_spec q Hq) as [Hq1 Hq2].
  pose proof (Z.log2_nonneg p) as Ha. pose proof (Z.log2_nonneg q) as Hb.
  set (a := Z.log2 p) in *. set (b := Z.log2 q) in *.
  rewrite <- Z.add_1_r in Hp2, Hq2.
  rewrite Z.pow_add_r in Hp2, Hq2 by lia. change (2 ^ 1) with 2 in Hp2, Hq2.
  assert (H0 : 2 ^ 52 * (q * 2 ^ Z.max 0 (a - b - 53))
               < p * 2 ^ Z.max 0 (- (a - b - 53))).
  { destruct (Z.le_gt_cases 0 (a - b - 53)) as [Hc|Hc].
    - rewrite (Z.max_r 0 (a - b - 53)) by lia.
      rewrite (Z.max_l 0 (- (a - b - 53))) by lia.
      change (2 ^ 0) with 1.
      assert (Hpow : 2 ^ a = 2 ^ 53 * 2 ^ b * 2 ^ (a - b - 53)).
      { rewrite <- !Z.pow_add_r by lia. f_equal. lia. }
      pose proof (Z.pow_pos_nonneg 2 (a - b - 53) ltac:(lia) Hc).
      change (2 ^ 53) with (2 * 2 ^ 52) in Hpow. nia.
    - rewrite (Z.max_l 0 (a - b - 53)) by lia.
      rewrite (Z.max_r 0 (- (a - b - 53))) by lia.
      change (2 ^ 0) with 1.
      assert (Hpow : 2 ^ a * 2 ^ (- (a - b - 53)) = 2 ^ 53 * 2 ^ b).
      { rewrite <- !Z.pow_add_r by lia. f_equal. lia. }
      pose proof (Z.pow_pos_nonneg 2 (- (a - b - 53)) ltac:(lia) ltac:(lia)).
      change (2 ^ 53) with (2 * 2 ^ 52) in Hpow. nia. }
  set (e0 := a - b - 53) in *.
  destruct (_ <? _) eqn:E.
  - split; [|lia].
    pose proof (Z.pow_pos_nonneg 2 (Z.max 0 e0) ltac:(lia) ltac:(lia)). nia.
  - apply Z.ltb_ge in E.
    destruct (Z.le_gt_cases 0 e0) as [Hc|Hc].
    + rewrite (Z.max_r 0 (e0 + 1)) by lia.
      rewrite (Z.max_l 0 (- (e0 + 1))) by lia.
      rewrite (Z.max_r 0 e0) in E by lia.
      rewrite (Z.max_l 0 (- e0)) in E by lia.
      rewrite Z.pow_add_r by lia. change (2 ^ 1) with 2. change (2 ^ 0) with 1 in *.
      pose proof (Z.pow_pos_nonneg 2 e0 ltac:(lia) Hc).
      change (2 ^ 53) with (2 * 2 ^ 52) in E. split; nia.
    + rewrite (Z.max_l 0 (e0 + 1)) by lia.
      rewrite (Z.max_r 0 (- (e0 + 1))) by lia.
      rewrite (Z.max_l 0 e0) in E by lia.
      rewrite (Z.max_r 0 (- e0)) in E by lia.
      replace (- e0) with (- (e0 + 1) + 1) in E by lia.
      rewrite Z.pow_add_r in E by lia. change (2 ^ 1) with 2 in E.
      change (2 ^ 0) with 1 in *.
      pose proof (Z.pow_pos_nonneg 2 (- (e0 + 1)) ltac:(lia) ltac:(lia)).
      change (2 ^ 53) with (2 * 2 ^ 52) in E. split; nia.
Qed.

Lemma pow2_pos (e : Z) : (0 < pow2 e)%Q.
Proof.
  unfold pow2. destruct (0 <=? e) eqn:E.
  - apply Z.leb_le in E. change 0%Q with (inject_Z 0). rewrite <- Zlt_Qlt.
    now apply Z.pow_pos_nonneg.
  - reflexivity.
Qed.

Lemma mantissa_bounds (n d m : Z) :
  0 < d → 2 ^ 52 * d <= n → 2 * n - d <= 2 * (m * d) <= 2 * n + d →
  (inject_Z n / inject_Z d * (1 - unit_roundoff) <= inject_Z m)%Q ∧
  (inject_Z m <= inject_Z n / inject_Z d * (1 + unit_roundoff))%Q.
Proof.
  intros Hd Hn [Hlo Hhi].
  assert (Hdq : (0 < inject_Z d)%Q)
    by (change 0%Q with (inject_Z 0); now rewrite <- Zlt_Qlt).
  assert (H1 : n * 2 ^ 53 <= m * d * 2 ^ 53 + n).
  { change (2 ^ 53) with (2 * 2 ^ 52). lia. }
  assert (H2 : m * d * 2 ^ 53 <= n * (2 ^ 53 + 1)).
  { change (2 ^ 53) with (2 * 2 ^ 52). lia. }
  rewrite Zle_Qle in H1, H2.
  rewrite inject_Z_plus in H1.
  rewrite !inject_Z_mult in H1, H2.
  rewrite inject_Z_plus in H2.
  change (inject_Z (2 ^ 53)) with (9007199254740992 # 1)%Q in H1, H2.
  change (inject_Z 1) with 1%Q in H1, H2.
  unfold unit_roundoff. change (2 ^ 53)%positive with 9007199254740992%positive.
  set (N := inject_Z n) in *. set (D := inject_Z d) in *. set (M := inject_Z m) in *.
  split.
  - assert (Erw : ((N / D * (1 - (1 # 9007199254740992)))%Q ==
      ((N * (1 - (1 # 9007199254740992))) / D)%Q)%Q) by (field; lra).
    rewrite Erw; clear Erw.
    apply Qle_shift_div_r; [assumption|]. lra.
  - assert (Erw : ((N / D * (1 + (1 # 9007199254740992)))%Q ==
      ((N * (1 + (1 # 9007199254740992))) / D)%Q)%Q) by (field; lra).
    rewrite Erw; clear Erw.
    apply Qle_shift_div_l; [assumption|]. lra.
Qed.

Lemma scaled_value (p q e : Z) :
  0 < p → 0 < q →
  (inject_Z p / inject_Z q
   == inject_Z (p * 2 ^ Z.max 0 (- e)) / inject_Z (q * 2 ^ Z.max 0 e) * pow2 e)%Q.
Proof.
  intros Hp Hq.
  assert (Hqq : (0 < inject_Z q)%Q)
    by (change 0%Q with (inject_Z 0); now rewrite <- Zlt_Qlt).
  unfold pow2. destruct (0 <=? e) eqn:E.
  - apply Z.leb_le in E.
    rewrite (Z.max_r 0 e) by lia. rewrite (Z.max_l 0 (- e)) by lia.
    change (2 ^ 0) with 1. rewrite Z.mul_1_r. rewrite inject_Z_mult.
    assert (Hpw : (0 < inject_Z (2 ^ e))%Q).
    { change 0%Q with (inject_Z 0). rewrite <- Zlt_Qlt. now apply Z.pow_pos_nonneg. }
    field. split; lra.
  - apply Z.leb_gt in E.
    rewrite (Z.max_l 0 e) by lia. rewrite (Z.max_r 0 (- e)) by lia.
    change (2 ^ 0) with 1. rewrite Z.mul_1_r. rewrite inject_Z_mult.
    assert (Hz : 0 < 2 ^ (- e)) by (apply Z.pow_pos_nonneg; lia).
    assert (Hpw : (0 < inject_Z (2 ^ (- e)))%Q).
    { change 0%Q with (inject_Z 0). now rewrite <- Zlt_Qlt. }
    assert (Hinv : (1 # Z.to_pos (2 ^ (- e)) == / inject_Z (2 ^ (- e)))%Q).
    { unfold Qeq, Qinv, inject_Z. simpl.
      destruct (2 ^ (- e)) as [|pp|pp] eqn:Epp; try lia. simpl. reflexivity. }
    rewrite Hinv. field. split; lra.
Qed.

Lemma round53_bounds (p q : Z) :
  0 < p → 0 < q →
  (inject_Z p / inject_Z q * (1 - unit_roundoff) <= round53 p q)%Q ∧
  (round53 p q <= inject_Z p / inject_Z q * (1 + unit_roundoff))%Q.
Proof.
  intros Hp Hq.
  pose proof (scaled_mantissa p q Hp Hq) as Hs. cbv zeta in Hs.
  unfold round53.
  set (e := if _ <? _ then _ else _) in *.
  destruct Hs as [Hd Hn].
  set (n := p * 2 ^ Z.max 0 (- e)) in *. set (d := q * 2 ^ Z.max 0 e) in *.
  assert (Hn0 : 0 <= n).
  { pose proof (Z.pow_pos_nonneg 2 52 ltac:(lia) ltac:(lia)). nia. }
  destruct (round_half_even_near n d Hn0 Hd) as [_ Hm].
  destruct (mantissa_bounds n d (round_half_even n d) Hd Hn Hm) as [Hlo Hhi].
  pose proof (pow2_pos e) as He.
  rewrite (scaled_value p q e Hp Hq). fold n d.
  set (r := (inject_Z n / inject_Z d)%Q) in *.
  set (M := inject_Z (round_half_even n d)) in *.
  split.
  - assert (Erw : ((r * pow2 e * (1 - unit_roundoff))%Q ==
      (r * (1 - unit_roundoff) * pow2 e)%Q)%Q) by ring.
    rewrite Erw; clear Erw.
    apply Qmult_le_compat_r; [assumption | lra].
  - assert (Erw : ((r * pow2 e * (1 + unit_roundoff))%Q ==
      (r * (1 + unit_roundoff) * pow2 e)%Q)%Q) by ring.
    rewrite Erw; clear Erw.
    apply Qmult_le_compat_r; [assumption | lra].
Qed.

Lemma binary64_zero (x : Q) : Qnum x = 0 → binary64 x = 0%Q.
Proof. intros H. unfold binary64. now rewrite H. Qed.

(** Rounding moves a number that is not negative by at most one part in
    [2 ^ 53] of it. *)
Lemma binary64_bounds (x : Q) :
  (0 <= x)%Q →
  (x * (1 - unit_roundoff) <= binary64 x)%Q ∧
  (binary64 x <= x * (1 + unit_roundoff))%Q.
Proof.
  intros Hx. destruct x as [num den]. unfold binary64. simpl.
  destruct num as [|p|p].
  - split; unfold Qle; simpl; lia.
  - destruct (round53_bounds (Zpos p) (Zpos den) ltac:(lia) ltac:(lia)) as [Hlo Hhi].
    assert (Heq : (Zpos p # den == inject_Z (Zpos p) / inject_Z (Zpos den))%Q)
      by apply Qmake_Qdiv.
    rewrite Heq. split; assumption.
  - exfalso. unfold Qle in Hx. simpl in Hx. lia.
Qed.

Lemma binary64_nonneg (x : Q) : (0 <= x)%Q → (0 <= binary64 x)%Q.
Proof.
  intros Hx. destruct (binary64_bounds x Hx) as [Hlo _].
  eapply Qle_trans; [|exact Hlo].
  apply Qmult_le_0_compat; [assumption|]. unfold unit_roundoff. unfold Qle. simpl. lia.
Qed.

(** On the elapsed times [n] and [n / 8] for [n] up to 12 with every rate
    [a / b] of numbers up to 12, and on the two products of
    [token_bucket_rounding], the product that [tokens_to_add] truncates is
    the one the machine computes. *)
Example binary64_agrees_with_the_machine :
  forallb
    (fun '(n, k, a, b) =>
       match machine_product n k a b with
       | Some q =>
           Qeq_bool q (binary64 (binary64 (n # Z.to_pos (2 ^ k))
                                 * binary64 (inject_Z a / inject_Z b)))
       | None => false
       end)
    ([ (49, 0, 1, 49); (105 * 2 ^ 46 - 1, 46, 1, 105); (1, 0, 1, 3);
       (1, 0, 3, 2); (2001, 1, 1000, 3600) ]
     ++ (k ← [0; 3]; n ← seqZ 1 12; a ← seqZ 1 12; b ← seqZ 1 12;
         [(n, k, a, b)]))
  = true.
Proof. vm_compute. reflexivity. Qed.

Lemma Qmult_le_compat_nonneg (a b c d : Q) :
  (0 <= a)%Q → (0 <= c)%Q → (a <= b)%Q → (c <= d)%Q → (a * c <= b * d)%Q.
Proof.
  intros Ha Hc Hab Hcd.
  apply Qle_trans with (b * c)%Q.
  - apply Qmult_le_compat_r; assumption.
  - rewrite (Qmult_comm b c), (Qmult_comm b d).
    apply Qmult_le_compat_r; [assumption|]. apply Qle_trans with a; assumption.
Qed.

(** What two roundings of the factors and one of the product can do to a
    product of numbers that are not negative. *)
Lemma binary64_product_bounds (a b : Q) :
  (0 <= a)%Q → (0 <= b)%Q →
  (a * b * (1 - rounding_slack) <= binary64 (binary64 a * binary64 b))%Q ∧
  (binary64 (binary64 a * binary64 b) <= a * b * (1 + rounding_slack))%Q.
Proof.
  intros Ha Hb.
  destruct (binary64_bounds a Ha) as [Ha1 Ha2].
  destruct (binary64_bounds b Hb) as [Hb1 Hb2].
  pose proof (binary64_nonneg a Ha) as HA. pose proof (binary64_nonneg b Hb) as HB.
  set (A := binary64 a) in *. set (B := binary64 b) in *.
  assert (HAB : (0 <= A * B)%Q) by now apply Qmult_le_0_compat.
  destruct (binary64_bounds (A * B)%Q HAB) as [Hp1 Hp2].
  set (P := binary64 (A * B)) in *.
  assert (Hab : (0 <= a * b)%Q) by now apply Qmult_le_0_compat.
  assert (Hu : (0 <= 1 - unit_roundoff)%Q) by (unfold unit_roundoff, Qle; simpl; lia).
  assert (Hlo : (a * (1 - unit_roundoff) * (b * (1 - unit_roundoff)) <= A * B)%Q).
  { apply Qmult_le_compat_nonneg; try assumption;
      now apply Qmult_le_0_compat. }
  assert (Hhi : (A * B <= a * (1 + unit_roundoff) * (b * (1 + unit_roundoff)))%Q).
  { apply Qmult_le_compat_nonneg; assumption. }
  unfold rounding_slack, unit_roundoff in *.
  change (2 ^ 53)%positive with 9007199254740992%positive in *.
  change (2 ^ 51)%positive with 2251799813685248%positive.
  set (ab := (a * b)%Q) in *.
  assert (E1 : (a * (1 - (1 # 9007199254740992)) * (b * (1 - (1 # 9007199254740992)))
                == ab * ((1 - (1 # 9007199254740992)) * (1 - (1 # 9007199254740992))))%Q)
    by (unfold ab; ring).
  assert (E2 : (a * (1 + (1 # 9007199254740992)) * (b * (1 + (1 # 9007199254740992)))
                == ab * ((1 + (1 # 9007199254740992)) * (1 + (1 # 9007199254740992))))%Q)
    by (unfold ab; ring).
  rewrite E1 in Hlo. rewrite E2 in Hhi. clear E1 E2.
  set (AB := (A * B)%Q) in *.
  split; lra.
Qed.

(** ** Strings and keys *)

Lemma length_append (a b : string) :
  String.length (a +:+ b) = (String.length a + String.length b)%nat.
Proof. induction a as [|ch a IH]; simpl; [reflexivity | now rewrite IH]. Qed.

Lemma if_truthy_Some (o : option string) (s : string) :
  if_truthy o = Some s ↔ o = Some s ∧ s ≠ "".
Proof.
  unfold if_truthy. destruct o as [[|ch r]|]; simpl; split.
  all: try (intros [H1 H2]); try intros H; try discriminate; try congruence.
  inversion H; subst. split; [reflexivity | discriminate].
Qed.

Lemma if_truthy_None (o : option string) :
  if_truthy o = None ↔ o = None ∨ o = Some "".
Proof.
  unfold if_truthy. destruct o as [[|ch r]|]; simpl; split; intros H.
  all: try (destruct H as [H|H]); try discriminate; auto.
Qed.

Lemma append_nil_r (s : string) : s +:+ "" = s.
Proof.
  induction s as [|ch s IH]; [reflexivity|].
  change (String ch (s +:+ "") = String ch s). now rewrite IH.
Qed.

Lemma append_assoc (a b c : string) : (a +:+ b) +:+ c = a +:+ (b +:+ c).
Proof.
  induction a as [|ch a IH]; [reflexivity|].
  change (String ch ((a +:+ b) +:+ c) = String ch (a +:+ b +:+ c)).
  now rewrite IH.
Qed.

Lemma absent_if_truthy (o : option string) : absent o ↔ if_truthy o = None.
Proof. unfold absent. symmetry. apply if_truthy_None. Qed.

Lemma all_space_nil : all_space "".
Proof. intros [|c a] ch b H; discriminate H. Qed.

Lemma all_space_cons (c : Ascii.ascii) (s : string) :
  is_space c = true → all_space s → all_space (String c s).
Proof.
  intros Hc Hs [|c' a] ch b H.
  - change (String c s = String ch b) in H. inversion H; subst. exact Hc.
  - change (String c s = String c' (a +:+ String ch b)) in H. inversion H; subst.
    eapply Hs. reflexivity.
Qed.

Lemma all_space_app (s t : string) : all_space s → all_space t → all_space (s +:+ t).
Proof.
  induction s as [|c s IH]; intros Hs Ht; [exact Ht|].
  change (all_space (String c (s +:+ t))). apply all_space_cons.
  - apply (Hs "" c s). reflexivity.
  - apply IH; [|exact Ht]. intros a ch b H. apply (Hs (String c a) ch b).
    change (String c s = String c (a +:+ String ch b)). now rewrite H.
Qed.

Lemma comma_free_cons (c : Ascii.ascii) (s : string) :
  c ≠ ","%char → (∀ a b, s ≠ a +:+ "," +:+ b) →
  ∀ a b, String c s ≠ a +:+ "," +:+ b.
Proof.
  intros Hc Hs [|c' a] b H.
  - change (String c s = String "," b) in H. inversion H. contradiction.
  - change (String c s = String c' (a +:+ "," +:+ b)) in H. inversion H; subst.
    eapply Hs. reflexivity.
Qed.

Lemma split_comma_first_spec (chain : string) :
  first_of_chain chain (split_comma_first chain).
Proof.
  unfold first_of_chain. induction chain as [|c r [IH1 IH2]]; simpl.
  - split; [now left|]. intros [|c a] b H; discriminate H.
  - destruct (Ascii.eqb c ",") eqn:E.
    + apply Ascii.eqb_eq in E. subst c. split.
      * right. exists r. reflexivity.
      * intros [|c a] b H; discriminate H.
    + apply Ascii.eqb_neq in E. split.
      * destruct IH1 as [IH1|[rest IH1]].
        -- left. now rewrite <- IH1.
        -- right. exists rest.
           change (String c r = String c (split_comma_first r +:+ "," +:+ rest)).
           now rewrite <- IH1.
      * now apply comma_free_cons.
Qed.

Lemma lstrip_spec (s : string) :
  ∃ lead, s = lead +:+ lstrip s ∧ all_space lead ∧
          ∀ ch rest, lstrip s = String ch rest → is_space ch = false.
Proof.
  induction s as [|c s (lead & Hs & Hl & Hf)]; simpl.
  - exists "". repeat split; [apply all_space_nil|]. intros ch rest H. discriminate H.
  - destruct (is_space c) eqn:E.
    + exists (String c lead). split; [|split].
      * change (String c s = String c (lead +:+ lstrip s)). now rewrite <- Hs.
      * now apply all_space_cons.
      * exact Hf.
    + exists "". split; [reflexivity|]. split; [apply all_space_nil|].
      intros ch rest H. inversion H; subst. exact E.
Qed.

Lemma rev_app_append (s1 s2 s3 : string) :
  String.rev_app s1 s2 +:+ s3 = String.rev_app s1 (s2 +:+ s3).
Proof.
  revert s2. induction s1 as [|c s1 IH]; intros s2; simpl; [reflexivity|].
  now rewrite IH.
Qed.

Lemma rev_cons (c : Ascii.ascii) (s : string) :
  String.rev (String c s) = String.rev s +:+ String c "".
Proof. unfold String.rev. simpl. now rewrite rev_app_append. Qed.

Lemma rev_append (a b : string) :
  String.rev (a +:+ b) = String.rev b +:+ String.rev a.
Proof.
  induction a as [|c a IH].
  - change (String.rev b = String.rev b +:+ ""). now rewrite append_nil_r.
  - change (String.rev (String c (a +:+ b)) = String.rev b +:+ String.rev (String c a)).
    rewrite !rev_cons, IH. now rewrite append_assoc.
Qed.

Lemma rev_involutive (s : string) : String.rev (String.rev s) = s.
Proof.
  induction s as [|c s IH]; [reflexivity|].
  rewrite rev_cons, rev_append, IH. reflexivity.
Qed.

Lemma all_space_rev (s : string) : all_space s → all_space (String.rev s).
Proof.
  induction s as [|c s IH]; intros Hs; [exact Hs|].
  rewrite rev_cons. apply all_space_app.
  - apply IH. intros a ch b H. apply (Hs (String c a) ch b).
    change (String c s = String c (a +:+ String ch b)). now rewrite H.
  - apply all_space_cons; [|apply all_space_nil]. apply (Hs "" c s). reflexivity.
Qed.

Lemma strip_spec (s : string) : trimmed_of s (strip s).
Proof.
  unfold strip.
  destruct (lstrip_spec s) as (lead & Hs & Hlead & Hfirst).
  destruct (lstrip_spec (String.rev (lstrip s))) as (l2 & Hr & Hl2 & Hlast).
  set (t := lstrip s) in *. set (u := lstrip (String.rev t)) in *.
  assert (Ht : t = String.rev u +:+ String.rev l2).
  { rewrite <- rev_append, <- Hr. now rewrite rev_involutive. }
  split; [|split].
  - exists lead, (String.rev l2). split; [|split].
    + rewrite Hs at 1. now rewrite Ht.
    + exact Hlead.
    + now apply all_space_rev.
  - intros ch rest H. apply (Hfirst ch (rest +:+ String.rev l2)).
    rewrite Ht, H. reflexivity.
  - intros init ch H. apply (Hlast ch (String.rev init)).
    rewrite <- (rev_involutive u), H, rev_append. reflexivity.
Qed.

(** The text before the first comma of a chain [a,b]. *)
Lemma split_comma_first_chain (a b : string) :
  split_comma_first a = a → split_comma_first (a +:+ "," +:+ b) = a.
Proof.
  induction a as [|ch a IH]; simpl; [reflexivity|].
  destruct (Ascii.eqb ch ","%char); [discriminate|].
  intros H. inversion H as [H1]. rewrite H1. now rewrite (IH H1).
Qed.

(** ** What the cache operations leave behind *)

Lemma cache_get_log (w : world) (k : string) (c c1 : CacheService)
    (got : option value) :
  cache_get w k c = (got, c1) → (length (log c) <= length (log c1))%nat.
Proof.
  unfold cache_get, RedisCache_get, InMemoryCache_get.
  destruct c as [b d l]; destruct b; simpl.
  - destruct (get_fails w); intros H; inversion H; subst; simpl;
      rewrite ?length_app; simpl; lia.
  - destruct (d !! k) as [e|]; [destruct (live (now w) e)|];
      intros H; inversion H; subst; simpl; lia.
Qed.

Lemma cache_set_stored (w : world) (k : string) (v : value) (ttl : Z)
    (c1 c2 : CacheService) (ok : bool) :
  cache_set w k v ttl c1 = (ok, c2) →
  (log c2 = log c1 ∧ data c2 !! k = Some (Entry v (after (now w) ttl))) ∨
  length (log c2) = S (length (log c1)).
Proof.
  unfold cache_set, RedisCache_set, InMemoryCache_set.
  destruct c1 as [b d l]; destruct b; simpl.
  - destruct (write_fails w || (ttl <=? 0)); intros H; inversion H; subst; simpl.
    + right. rewrite length_app. simpl. lia.
    + left. split; [reflexivity | apply lookup_insert_eq].
  - intros H; inversion H; subst; simpl.
    left. split; [reflexivity | apply lookup_insert_eq].
Qed.


Lemma cache_get_absent (w : world) (k : string) (c : CacheService) :
  data c !! k = None → ∃ c1, cache_get w k c = (None, c1) ∧ data c1 = data c ∧
                             current_cache c1 = current_cache c.
Proof.
  intros Hk. unfold cache_get, RedisCache_get, InMemoryCache_get, redis_lookup.
  rewrite Hk. destruct (current_cache c) eqn:Hb.
  - destruct (get_fails w); eexists; repeat split; try reflexivity; simpl; auto.
  - eexists; repeat split; auto.
Qed.

Lemma cache_get_live (w : world) (k : string) (c : CacheService) (e : entry) :
  healthy w c → data c !! k = Some e → live (now w) e = true →
  cache_get w k c = (Some (entry_value e), c).
Proof.
  intros Hh Hk Hl. unfold cache_get, RedisCache_get, InMemoryCache_get, redis_lookup.
  rewrite Hk, Hl. destruct Hh as [Hb|[Hg _]].
  - now rewrite Hb.
  - rewrite Hg. now destruct (current_cache c).
Qed.

Lemma cache_set_healthy (w : world) (k : string) (v : value) (ttl : Z)
    (c : CacheService) :
  healthy w c → 0 < ttl →
  cache_set w k v ttl c
  = (true, with_data c (<[k := Entry v (after (now w) ttl)]> (data c))).
Proof.
  intros Hh Ht. unfold cache_set, RedisCache_set, InMemoryCache_set.
  destruct Hh as [Hb|[_ Hw]].
  - now rewrite Hb.
  - rewrite Hw. destruct (ttl <=? 0) eqn:E; [lia|]. now destruct (current_cache c).
Qed.

(** ** Identifier derivation *)

(** C9: the identifier is [user:<uid>] for an authenticated user id that is
    not empty. Without one it is [ip:] and the first address of the
    X-Forwarded-For chain (the text before its first comma, without the
    white space around it) when that header is present and not empty; else
    [ip:] and a direct address (the X-Real-IP header when present and not
    empty, else the peer host of the connection); else [ip:unknown]. It
    always starts with [user:] or [ip:], and no identifier of one namespace
    equals one of the other. *)
Theorem get_identifier_priority (request : Request) (user_id : option string) :
  let id := get_identifier_from_request request user_id in
  let forwarded := request_headers request !! "X-Forwarded-For" in
  let real := request_headers request !! "X-Real-IP" in
  (∀ uid, user_id = Some uid → uid ≠ "" → id = "user:" +:+ uid) ∧
  (absent user_id →
     (∀ chain, forwarded = Some chain → chain ≠ "" →
        ∃ first address,
          first_of_chain chain first ∧ trimmed_of first address ∧
          id = "ip:" +:+ address) ∧
     (absent forwarded →
        (∀ real_ip, real = Some real_ip → real_ip ≠ "" → id = "ip:" +:+ real_ip) ∧
        (absent real →
           (∀ host, client request = Some host → id = "ip:" +:+ host) ∧
           (client request = None → id = "ip:unknown")))) ∧
  ((∃ uid, id = "user:" +:+ uid) ∨ (∃ address, id = "ip:" +:+ address)) ∧
  (∀ uid address, "user:" +:+ uid ≠ "ip:" +:+ address).
Proof.
  cbv zeta. unfold get_identifier_from_request.
  split; [|split; [|split]].
  - intros uid Hu Hne.
    assert (H : if_truthy user_id = Some uid) by (apply if_truthy_Some; auto).
    now rewrite H.
  - intros Hnone. apply absent_if_truthy in Hnone. rewrite Hnone. split.
    + intros chain Hc Hne.
      assert (H : if_truthy (request_headers request !! "X-Forwarded-For") = Some chain)
        by (apply if_truthy_Some; auto).
      rewrite H. exists (split_comma_first chain), (strip (split_comma_first chain)).
      split; [apply split_comma_first_spec|]. split; [apply strip_spec | reflexivity].
    + intros Hf. apply absent_if_truthy in Hf. rewrite Hf. split.
      * intros real_ip Hr Hne.
        assert (H : if_truthy (request_headers request !! "X-Real-IP") = Some real_ip)
          by (apply if_truthy_Some; auto).
        now rewrite H.
      * intros Hr. apply absent_if_truthy in Hr. rewrite Hr. split.
        -- intros host Hh. now rewrite Hh.
        -- intros Hh. now rewrite Hh.
  - destruct (if_truthy user_id) as [uid|]; [left; eauto|].
    right.
    destruct (if_truthy (request_headers request !! "X-Forwarded-For")); [eauto|].
    destruct (if_truthy (request_headers request !! "X-Real-IP")); eauto.
  - intros uid address H. discriminate H.
Qed.

Example identifier_of_forwarded_chain :
  get_identifier_from_request
    {| request_headers := {[ "X-Forwarded-For" := " 203.0.113.7 , 10.0.0.1" ]};
       client := Some "10.0.0.9" |} (Some "")
  = "ip:203.0.113.7".
Proof. vm_compute. reflexivity. Qed.

(** ** The policy lookup *)

Lemma rate_limit_for_known (self : RateLimiter) (limit_type : string)
    (is_premium : bool) (fallback found : RateLimit) :
  default_limits self !! "global" = Some fallback →
  (if is_premium then premium_limits self else default_limits self) !! limit_type
    = Some found →
  rate_limit_for self limit_type is_premium = Ok found.
Proof. intros Hg Hl. unfold rate_limit_for. now rewrite Hg, Hl. Qed.

Lemma rate_limit_for_unknown (self : RateLimiter) (limit_type : string)
    (is_premium : bool) (fallback : RateLimit) :
  default_limits self !! "global" = Some fallback →
  (if is_premium then premium_limits self else default_limits self) !! limit_type
    = None →
  rate_limit_for self limit_type is_premium = Ok fallback.
Proof. intros Hg Hl. unfold rate_limit_for. now rewrite Hg, Hl. Qed.

(** C2, as the code has it: a class that the table of the caller's tier does
    not list is checked against the standard tier's "global" configuration
    (1000 requests an hour), for standard and premium callers alike. *)
Theorem unknown_class_uses_standard_global (w : world) (identifier limit_type : string)
    (is_premium : bool) (c : CacheService) :
  (if is_premium then premium_limits rate_limiter else default_limits rate_limiter)
    !! limit_type = None →
  default_limits rate_limiter !! "global" = Some (limit 1000 3600) ∧
  rate_limit_for rate_limiter limit_type is_premium = Ok (limit 1000 3600) ∧
  check_rate_limit rate_limiter w identifier limit_type is_premium c
  = _check_fixed_window w ("rate_limit:" +:+ limit_type +:+ ":" +:+ identifier)
      (limit 1000 3600) c.
Proof.
  intros Hnone.
  assert (Hg : default_limits rate_limiter !! "global" = Some (limit 1000 3600))
    by (vm_compute; reflexivity).
  pose proof (rate_limit_for_unknown rate_limiter limit_type is_premium _ Hg Hnone) as Hr.
  split; [exact Hg|]. split; [exact Hr|].
  unfold check_rate_limit. rewrite Hr. reflexivity.
Qed.

Lemma unknown_class_uses_standard_global_witness :
  rate_limit_for rate_limiter "video" true = Ok (limit 1000 3600).
Proof.
  refine (proj1 (proj2 (unknown_class_uses_standard_global
                          (at_time 1000) "user:alice" "video" true
                          (empty_cache InMemoryCache) _))).
  vm_compute. reflexivity.
Defined.

(** C2 as stated fails for the premium tier: the class "video" is in
    neither table, the premium "global" entry allows 10000 requests, and a
    premium caller is checked against 1000 (the first check leaves 999). *)
Lemma premium_unknown_class_not_premium_global :
  premium_limits rate_limiter !! "video" = None ∧
  default_limits rate_limiter !! "video" = None ∧
  premium_limits rate_limiter !! "global" = Some (limit 10000 3600) ∧
  rate_limit_for rate_limiter "video" true = Ok (limit 1000 3600) ∧
  limit 1000 3600 ≠ limit 10000 3600 ∧
  result_of (check_rate_limit rate_limiter (at_time 1000) "user:alice" "video" true
               (empty_cache InMemoryCache))
  = Ok {| allowed := true; remaining := 999; reset_time := 3600;
          retry_after := None |}.
Proof. repeat split; try (vm_compute; reflexivity). discriminate. Qed.

(** X4: for every class the tables list, the premium configuration allows
    at least as many requests as the standard one, over the same window and
    with the same strategy. *)
Theorem premium_at_least_standard (limit_type : string) (standard premium : RateLimit) :
  default_limits rate_limiter !! limit_type = Some standard →
  premium_limits rate_limiter !! limit_type = Some premium →
  requests standard <= requests premium ∧
  window standard = window premium ∧
  strategy standard = strategy premium.
Proof.
  intros Hs Hp. cbv [rate_limiter default_limits premium_limits] in Hs, Hp.
  apply elem_of_list_to_map_2 in Hs. apply elem_of_list_to_map_2 in Hp.
  repeat (apply elem_of_cons in Hs as [Hs|Hs]; [inversion Hs; subst; clear Hs|]);
    try (now apply elem_of_nil in Hs);
    repeat (apply elem_of_cons in Hp as [Hp|Hp];
            [inversion Hp; subst; clear Hp|]);
    try (now apply elem_of_nil in Hp);
    simpl; repeat split; lia.
Qed.

Lemma premium_at_least_standard_witness :
  requests (limit 10 3600) <= requests (limit 100 3600).
Proof.
  refine (proj1 (premium_at_least_standard "upload" (limit 10 3600)
                   (limit 100 3600) _ _)); vm_compute; reflexivity.
Defined.

(** ** The FastAPI dependency *)

Lemma dependency_on_denial (self : RateLimiter) (w : world) (request : Request)
    (limit_type : string) (user_id : option string) (is_premium : bool)
    (c c1 : CacheService) (r : RateLimitResult) :
  check_rate_limit self w (get_identifier_from_request request user_id)
    limit_type is_premium c = Ok (r, c1) →
  allowed r = false →
  match default_limits self !! limit_type with
  | None =>
      rate_limit_dependency self w request limit_type user_id is_premium c
      = Raise (KeyError limit_type)
  | Some shown =>
      ∃ detail rest,
        rate_limit_dependency self w request limit_type user_id is_premium c
        = Raise (HTTPException 429 detail
                   (("X-RateLimit-Limit", pretty (requests shown)) :: rest))
  end.
Proof.
  intros Hcheck Hdenied. unfold rate_limit_dependency.
  rewrite Hcheck. simpl. rewrite Hdenied. simpl.
  destruct (default_limits self !! limit_type) as [shown|]; [|reflexivity].
  eexists _, _. reflexivity.
Qed.

Lemma anonymous_calls_then_key_error :
  match run_checks
          (fun w => rate_limit_dependency rate_limiter w anonymous_request "user" None false)
          (replicate 1000 (at_time 1000)) (empty_cache InMemoryCache)
  with
  | Ok (rs, c1000) =>
      forallb allowed rs = true ∧
      rate_limit_dependency rate_limiter (at_time 1000) anonymous_request
        "rate_limit" (Some "ip:10.0.0.1") false c1000
      = Raise (KeyError "rate_limit")
  | Raise _ => False
  end.
Proof. vm_compute. split; reflexivity. Qed.

(** C10: when the check denies, the dependency indexes the standard table
    by the class name. For a class that table does not list this raises
    [KeyError] in place of the 429 rejection, and for a listed class the
    X-RateLimit-Limit header is the standard tier's limit whatever the
    caller's tier. Both happen: after 1000 anonymous calls of class "user"
    from 10.0.0.1, a call of class "rate_limit" by the user whose id is
    [ip:10.0.0.1] reads that counter, is denied and raises [KeyError]; and
    a premium caller denied at the premium limit of 100 uploads is shown
    the limit 10. *)
Theorem dependency_denial_indexes_standard_table :
  (∀ (self : RateLimiter) (w : world) (request : Request) (limit_type : string)
     (user_id : option string) (is_premium : bool) (c c1 : CacheService)
     (r : RateLimitResult),
     check_rate_limit self w (get_identifier_from_request request user_id)
       limit_type is_premium c = Ok (r, c1) →
     allowed r = false →
     match default_limits self !! limit_type with
     | None =>
         rate_limit_dependency self w request limit_type user_id is_premium c
         = Raise (KeyError limit_type)
     | Some shown =>
         ∃ detail rest,
           rate_limit_dependency self w request limit_type user_id is_premium c
           = Raise (HTTPException 429 detail
                      (("X-RateLimit-Limit", pretty (requests shown)) :: rest))
     end) ∧
  (default_limits rate_limiter !! "rate_limit" = None ∧
   ∃ (rs : list RateLimitResult) (c1000 : CacheService),
     run_checks
       (fun w => rate_limit_dependency rate_limiter w anonymous_request "user" None false)
       (replicate 1000 (at_time 1000)) (empty_cache InMemoryCache)
     = Ok (rs, c1000) ∧
     forallb allowed rs = true ∧
     rate_limit_dependency rate_limiter (at_time 1000) anonymous_request
       "rate_limit" (Some "ip:10.0.0.1") false c1000
     = Raise (KeyError "rate_limit")) ∧
  (premium_limits rate_limiter !! "upload" = Some (limit 100 3600) ∧
   rate_limit_dependency rate_limiter (at_time 1000)
     {| request_headers := ∅; client := None |} "upload" (Some "alice") true
     upload_counter_at_100
   = Raise (HTTPException 429
              {| error := "Rate limit exceeded";
                 message := "Too many requests for upload";
                 detail_retry_after := Some 2600;
                 detail_reset_time := 3600 |}
              [ ("X-RateLimit-Limit", "10"); ("X-RateLimit-Remaining", "0");
                ("X-RateLimit-Reset", "3600"); ("Retry-After", "2600") ])).
Proof.
  split; [|split].
  - intros. eapply dependency_on_denial; eassumption.
  - split; [vm_compute; reflexivity|].
    pose proof anonymous_calls_then_key_error as H.
    destruct (run_checks
       (fun w => rate_limit_dependency rate_limiter w anonymous_request "user" None false)
       (replicate 1000 (at_time 1000)) (empty_cache InMemoryCache))
      as [[rs c1000]|e]; [|contradiction].
    exists rs, c1000. destruct H as [H1 H2]. auto.
  - split; vm_compute; reflexivity.
Qed.

(** ** Reset *)

Lemma reset_keeps_other_keys (w : world) (identifier limit_type : string)
    (c c' : CacheService) (ok : bool) (k : string) :
  reset_rate_limit w identifier limit_type c = (ok, c') →
  k ≠ "rate_limit:" +:+ limit_type +:+ ":" +:+ identifier →
  data c' !! k = data c !! k.
Proof.
  unfold reset_rate_limit, cache_delete, RedisCache_delete, InMemoryCache_delete.
  intros H Hne. destruct (current_cache c).
  - destruct (write_fails w); [inversion H; reflexivity|].
    destruct (redis_lookup _ _ _); inversion H; subst; simpl; [|reflexivity].
    now apply lookup_delete_ne.
  - destruct (data c !! _); inversion H; subst; simpl; [|reflexivity].
    now apply lookup_delete_ne.
Qed.

(** X3 (the general shape of the defect behind C1): [reset_rate_limit]
    leaves the state of all three strategies as it was: the window counter
    (under both the key that is read and the key that is incremented), the
    timestamps and the bucket, each stored under the reset's key followed by
    a suffix that is not empty. *)
Theorem reset_keeps_every_counter (w : world) (identifier limit_type : string)
    (c c' : CacheService) (ok : bool) (suffix : string) :
  reset_rate_limit w identifier limit_type c = (ok, c') →
  suffix ≠ "" →
  let cache_key := "rate_limit:" +:+ limit_type +:+ ":" +:+ identifier in
  data c' !! (cache_key +:+ suffix) = data c !! (cache_key +:+ suffix) ∧
  data c' !! ("rate_limit:" +:+ cache_key +:+ suffix)
  = data c !! ("rate_limit:" +:+ cache_key +:+ suffix).
Proof.
  intros H Hs. cbv zeta.
  assert (Hlen : (0 < String.length suffix)%nat).
  { destruct suffix; [congruence | simpl; lia]. }
  split; apply (reset_keeps_other_keys w identifier limit_type c c' ok _ H).
  - intros E. apply (f_equal String.length) in E. rewrite !length_append in E.
    simpl in E. lia.
  - intros E. apply (f_equal String.length) in E. rewrite !length_append in E.
    simpl in E. lia.
Qed.

Lemma reset_keeps_every_counter_witness :
  data (reset_rate_limit (at_time 1000) "user:alice" "auth" cache_with_reset_key).2
    !! "rate_limit:rate_limit:auth:user:alice:900"
  = data cache_with_reset_key !! "rate_limit:rate_limit:auth:user:alice:900".
Proof.
  refine (proj2 (reset_keeps_every_counter (at_time 1000) "user:alice" "auth"
                   cache_with_reset_key
                   (reset_rate_limit (at_time 1000) "user:alice" "auth"
                      cache_with_reset_key).2
                   true ":900" _ _)).
  - reflexivity.
  - discriminate.
Defined.

Lemma reset_without_entry (w : world) (identifier limit_type : string)
    (c : CacheService) :
  current_cache c = InMemoryCache →
  data c !! ("rate_limit:" +:+ limit_type +:+ ":" +:+ identifier) = None →
  reset_rate_limit w identifier limit_type c = (false, c).
Proof.
  intros Hb Hk. unfold reset_rate_limit, cache_delete, InMemoryCache_delete.
  now rewrite Hb, Hk.
Qed.

Lemma first_auth_check_of_alice :
  match check_rate_limit rate_limiter (at_time 1000) "user:alice" "auth" false
          (empty_cache InMemoryCache) with
  | Ok (r1, c1) =>
      remaining r1 = 4 ∧
      current_cache c1 = InMemoryCache ∧
      data c1 !! "rate_limit:auth:user:alice" = None ∧
      entry_value <$> data c1 !! "rate_limit:rate_limit:auth:user:alice:900"
      = Some (VInt 1) ∧
      result_of (reset_then_check rate_limiter (at_time 1000) "user:alice" "auth"
                   false c1)
      = Ok {| allowed := true; remaining := 3; reset_time := 1200;
              retry_after := None |}
  | Raise _ => False
  end.
Proof. vm_compute. repeat split; reflexivity. Qed.

(** C1: what the code does where the claim expects [remaining = limit - 1].
    One check of class "auth" (5 per 300 s) for [user:alice], a reset, and
    at once a second check: the reset finds nothing to delete (its key is
    a prefix of the counter's key, not the key), the cache is unchanged
    with the counter at 1, and the second check leaves 3, not 4. *)
Theorem reset_then_check_keeps_count :
  ∃ (r1 : RateLimitResult) (c1 : CacheService),
    check_rate_limit rate_limiter (at_time 1000) "user:alice" "auth" false
      (empty_cache InMemoryCache) = Ok (r1, c1) ∧
    remaining r1 = 4 ∧
    entry_value <$> data c1 !! "rate_limit:rate_limit:auth:user:alice:900"
    = Some (VInt 1) ∧
    reset_rate_limit (at_time 1000) "user:alice" "auth" c1 = (false, c1) ∧
    result_of (reset_then_check rate_limiter (at_time 1000) "user:alice" "auth"
                 false c1)
    = Ok {| allowed := true; remaining := 3; reset_time := 1200;
            retry_after := None |}.
Proof.
  pose proof first_auth_check_of_alice as H.
  destruct (check_rate_limit rate_limiter (at_time 1000) "user:alice" "auth" false
              (empty_cache InMemoryCache)) as [[r1 c1]|e]; [|contradiction].
  destruct H as (H1 & H2 & H3 & H4 & H5).
  exists r1, c1. repeat split; try assumption.
  apply reset_without_entry; assumption.
Qed.

(** ** Fixed window *)

Lemma window_key_not_incremented (wk : string) : wk ≠ "rate_limit:" +:+ wk.
Proof.
  intros H. apply (f_equal String.length) in H.
  rewrite length_append in H. simpl in H. lia.
Qed.

Lemma increment_keeps_read_key (w : world) (wk : string) (win : Z) (c : CacheService) :
  read_key_unwritten wk c →
  ∃ n c', increment_rate_limit w wk win c = Ok (n, c') ∧
          read_key_unwritten wk c' ∧ current_cache c' = current_cache c.
Proof.
  intros [Hr Hi]. pose proof (window_key_not_incremented wk) as Hne.
  unfold increment_rate_limit. destruct c as [b d l]; simpl in *.
  destruct b.
  - unfold RedisCache_increment, redis_lookup; simpl.
    destruct (write_fails w).
    { eexists _, _. split; [reflexivity|]. split; [|reflexivity]. split; assumption. }
    destruct (d !! ("rate_limit:" +:+ wk)) as [e|] eqn:He.
    + destruct (Hi e eq_refl) as [n Hn].
      destruct (live (now w) e); [rewrite Hn|];
        (eexists _, _; split; [reflexivity|]; split; [|reflexivity]; split; simpl;
         [ rewrite lookup_insert_ne by congruence; assumption
         | intros e'; rewrite lookup_insert_eq; intros H; inversion H; simpl; eauto ]).
    + eexists _, _. split; [reflexivity|]. split; [|reflexivity]. split; simpl.
      * rewrite lookup_insert_ne by congruence. assumption.
      * intros e'. rewrite lookup_insert_eq. intros H; inversion H; simpl; eauto.
  - unfold cache_get, cache_set, InMemoryCache_get, InMemoryCache_set; simpl.
    destruct (d !! ("rate_limit:" +:+ wk)) as [e|] eqn:He.
    + destruct (Hi e eq_refl) as [n Hn].
      destruct (live (now w) e); [rewrite Hn|]; simpl;
        (eexists _, _; split; [reflexivity|]; split; [|reflexivity]; split; simpl;
         [ rewrite lookup_insert_ne by congruence;
           rewrite ?lookup_delete_ne by congruence; assumption
         | intros e'; rewrite lookup_insert_eq; intros H; inversion H; simpl; eauto ]).
    + simpl. eexists _, _. split; [reflexivity|]. split; [|reflexivity]. split; simpl.
      * rewrite lookup_insert_ne by congruence. assumption.
      * intros e'. rewrite lookup_insert_eq. intros H; inversion H; simpl; eauto.
Qed.

Lemma fixed_window_step (w : world) (cache_key : string) (rl : RateLimit)
    (c : CacheService) :
  0 < requests rl → window rl ≠ 0 →
  read_key_unwritten (window_key w cache_key rl) c →
  ∃ r c', _check_fixed_window w cache_key rl c = Ok (r, c') ∧
          allowed r = true ∧
          read_key_unwritten (window_key w cache_key rl) c' ∧
          current_cache c' = current_cache c.
Proof.
  intros Hr Hw Hinv. unfold _check_fixed_window.
  destruct (window rl =? 0) eqn:Hz; [lia|].
  fold (window_key w cache_key rl). set (wk := window_key w cache_key rl) in *.
  destruct (cache_get_absent w wk c (proj1 Hinv)) as (c1 & Hget & Hd & Hb).
  rewrite Hget. simpl.
  destruct (0 >=? requests rl) eqn:Hge; [lia|].
  assert (Hinv1 : read_key_unwritten wk c1).
  { unfold read_key_unwritten. rewrite Hd. exact Hinv. }
  destruct (increment_keeps_read_key w wk (window rl) c1 Hinv1)
    as (n & c' & Hinc & Hinv' & Hb').
  rewrite Hinc. simpl. eexists _, _. split; [reflexivity|].
  split; [reflexivity|]. split; [exact Hinv'|]. congruence.
Qed.

(** X2 (the general shape of the defect behind C4): from an empty cache,
    fixed-window checks that fall in one window are all allowed, however
    many they are, on either backend and whether or not cache calls fail. *)
Theorem fixed_window_never_denies (b : backend) (cache_key : string)
    (rl : RateLimit) (ws : list world) (start : Z) :
  0 < requests rl → window rl ≠ 0 →
  (∀ w, In w ws → py_int (now w) `div` window rl * window rl = start) →
  ∃ rs c', run_checks (fun w => _check_fixed_window w cache_key rl) ws
             (empty_cache b) = Ok (rs, c') ∧
           length rs = length ws ∧
           ∀ r, In r rs → allowed r = true.
Proof.
  intros Hr Hw Hs.
  assert (Hgen : ∀ c, read_key_unwritten (cache_key +:+ ":" +:+ pretty start) c →
            ∃ rs c', run_checks (fun w => _check_fixed_window w cache_key rl) ws c
                     = Ok (rs, c') ∧ length rs = length ws ∧
                     ∀ r, In r rs → allowed r = true).
  { induction ws as [|w ws IH]; intros c Hinv.
    - exists [], c. repeat split. intros r [].
    - assert (Hk : window_key w cache_key rl = cache_key +:+ ":" +:+ pretty start).
      { unfold window_key. now rewrite (Hs w (or_introl eq_refl)). }
      rewrite <- Hk in Hinv.
      destruct (fixed_window_step w cache_key rl c Hr Hw Hinv)
        as (r & c1 & Hc & Ha & Hinv1 & _).
      rewrite Hk in Hinv1.
      destruct (IH (fun w0 Hin => Hs w0 (or_intror Hin)) c1 Hinv1)
        as (rs & c' & Hrun & Hlen & Hall).
      simpl. rewrite Hc. simpl. rewrite Hrun. simpl.
      exists (r :: rs), c'. split; [reflexivity|]. split; [simpl; congruence|].
      intros r' [<-|Hin]; auto. }
  apply Hgen. split; [reflexivity|]. intros e H. discriminate H.
Qed.

Lemma fixed_window_never_denies_witness :
  ∃ rs c', run_checks
             (fun w => _check_fixed_window w "rate_limit:auth:user:alice"
                         (limit 5 300))
             (replicate 6 (at_time 1000)) (empty_cache RedisCache) = Ok (rs, c') ∧
           length rs = 6%nat ∧ ∀ r, In r rs → allowed r = true.
Proof.
  refine (fixed_window_never_denies RedisCache "rate_limit:auth:user:alice"
            (limit 5 300) (replicate 6 (at_time 1000)) 900 _ _ _).
  - simpl; lia.
  - simpl; lia.
  - intros w Hin. simpl in Hin.
    destruct Hin as [<-|[<-|[<-|[<-|[<-|[<-|[]]]]]]]; vm_compute; reflexivity.
Defined.

(** C4: what the code does where the claim expects a denial. With 3
    requests a minute and an empty cache, four fixed-window checks in one
    second are all allowed, on either backend: the count is read under the
    window key and incremented under that key prefixed with [rate_limit:].
    The sliding window denies the fourth. *)
Theorem fixed_window_fourth_check_allowed :
  (∀ b : backend,
     result_of (run_checks
                  (fun w => check_with w "rate_limit:upload:user:alice"
                              (three_per_minute FIXED_WINDOW))
                  (replicate 4 (at_time 1000)) (empty_cache b))
     = Ok [ {| allowed := true; remaining := 2; reset_time := 1020; retry_after := None |};
            {| allowed := true; remaining := 1; reset_time := 1020; retry_after := None |};
            {| allowed := true; remaining := 0; reset_time := 1020; retry_after := None |};
            {| allowed := true; remaining := 0; reset_time := 1020; retry_after := None |} ]) ∧
  (∀ b : backend,
     result_of (run_checks
                  (fun w => check_with w "rate_limit:upload:user:alice"
                              (three_per_minute SLIDING_WINDOW))
                  (replicate 4 (at_time 1000)) (empty_cache b))
     = Ok [ {| allowed := true; remaining := 2; reset_time := 1060; retry_after := None |};
            {| allowed := true; remaining := 1; reset_time := 1060; retry_after := None |};
            {| allowed := true; remaining := 0; reset_time := 1060; retry_after := None |};
            {| allowed := false; remaining := 0; reset_time := 1060;
               retry_after := Some 60 |} ]).
Proof. split; intros [|]; vm_compute; reflexivity. Qed.

(** ** Sliding window *)

Lemma filter_all_true {A : Type} (f : A → bool) (l : list A) :
  (∀ x, In x l → f x = true) → List.filter f l = l.
Proof.
  induction l as [|a l IH]; simpl; intros H; [reflexivity|].
  rewrite (H a (or_introl eq_refl)). f_equal. apply IH. auto.
Qed.

Lemma still_live (t t0 : Q) (win : Z) :
  (0 <= t0)%Q → py_int t - win < py_int t0 →
  live t (Entry (VList []) (after t0 win)) = true.
Proof.
  intros H0 Hlt. unfold live, after. simpl. apply Qlt_bool_iff.
  pose proof (py_int_bounds t) as [Hlo _].
  pose proof (py_int_le_self t0 H0) as Hle.
  assert (Hz : (inject_Z (py_int t + 1) <= inject_Z (py_int t0 + win))%Q)
    by (rewrite <- Zle_Qle; lia).
  rewrite !inject_Z_plus in Hz. change (inject_Z 1) with 1%Q in Hz. lra.
Qed.

Lemma sliding_window_step (w : world) (cache_key : string) (rl : RateLimit)
    (done : list world) (c : CacheService) :
  healthy w c → 0 < requests rl → 0 < window rl →
  window_holds cache_key rl done c →
  one_window rl (w :: done) →
  if Z.of_nat (length done) <? requests rl then
    ∃ r c', _check_sliding_window w cache_key rl c = Ok (r, c') ∧
            allowed r = true ∧
            remaining r = requests rl - Z.of_nat (length done) - 1 ∧
            current_cache c' = current_cache c ∧
            window_holds cache_key rl (w :: done) c'
  else
    ∃ r, _check_sliding_window w cache_key rl c = Ok (r, c) ∧ allowed r = false.
Proof.
  intros Hh Hr Hw Hinv Hone. unfold _check_sliding_window.
  set (key := cache_key +:+ ":timestamps") in *.
  assert (Hget : ∃ c1, cache_get w key c
                       = (match done with
                          | [] => None
                          | _ => Some (VList (map (fun w => py_int (now w)) (rev done)))
                          end, c1) ∧ data c1 = data c ∧
                       current_cache c1 = current_cache c ∧
                       (done ≠ [] → c1 = c)).
  { destruct done as [|last rest]; simpl in Hinv.
    - destruct (cache_get_absent w key c Hinv) as (c1 & H1 & H2 & H3).
      exists c1. repeat split; auto. congruence.
    - exists c. repeat split; auto.
      rewrite (cache_get_live w key c _ Hh Hinv); [reflexivity|].
      destruct (Hone last w) as [H0 Hlt]; [right; now left | now left |].
      exact (still_live _ _ _ H0 Hlt). }
  destruct Hget as (c1 & Hget & Hd1 & Hb1 & Hc1). rewrite Hget.
  assert (Hts : timestamps_or_empty
                  (match done with
                   | [] => None
                   | _ => Some (VList (map (fun w => py_int (now w)) (rev done)))
                   end) = Ok (map (fun w => py_int (now w)) (rev done))).
  { destruct done; reflexivity. }
  rewrite Hts. simpl.
  rewrite filter_all_true.
  2:{ intros x Hx. apply in_map_iff in Hx as (w0 & <- & Hin).
      apply in_rev in Hin. apply Z.ltb_lt.
      destruct (Hone w0 w) as [_ Hlt]; [now right | now left |]. lia. }
  rewrite length_map, length_rev.
  destruct (Z.of_nat (length done) <? requests rl) eqn:Hlt.
  - apply Z.ltb_lt in Hlt.
    destruct (_ >=? requests rl) eqn:Hge.
    { rewrite Z.geb_leb in Hge. apply Z.leb_le in Hge. lia. }
    assert (Hh1 : healthy w c1).
    { destruct Hh as [Hb|Hf]; [left; congruence | now right]. }
    rewrite (cache_set_healthy w key _ _ c1 Hh1 Hw).
    eexists _, _. split; [reflexivity|]. simpl.
    split; [reflexivity|]. split.
    { rewrite length_app, length_map, length_rev. simpl. lia. }
    split; [exact Hb1|].
    rewrite lookup_insert_eq. rewrite map_app. reflexivity.
  - apply Z.ltb_ge in Hlt.
    destruct (_ >=? requests rl) eqn:Hge.
    2:{ rewrite Z.geb_leb in Hge. apply Z.leb_gt in Hge. lia. }
    destruct (py_min _) as [m|e] eqn:Hmin; simpl.
    + rewrite Hc1; [eexists; split; reflexivity|].
      intros ->. simpl in Hmin. discriminate.
    + exfalso. destruct done as [|last rest]; [simpl in Hlt; lia|].
      simpl in Hmin. destruct (rev rest ++ [last]) eqn:E; simpl in Hmin; [|discriminate].
      symmetry in E. now apply app_cons_not_nil in E.
Qed.

Lemma sliding_window_run (cache_key : string) (rl : RateLimit) (ws : list world) :
  ∀ (done : list world) (c : CacheService),
    (∀ w, In w ws → healthy w c) → 0 < requests rl → 0 < window rl →
    window_holds cache_key rl done c →
    one_window rl (ws ++ done) →
    ∃ rs c', run_checks (fun w => _check_sliding_window w cache_key rl) ws c
             = Ok (rs, c') ∧
             length rs = length ws ∧
             ∀ i r, rs !! i = Some r →
                    allowed r = (Z.of_nat (length done + i) <? requests rl).
Proof.
  induction ws as [|w ws IH]; intros done c Hh Hr Hw Hinv Hone.
  - exists [], c. repeat split. intros i r H. destruct i; discriminate H.
  - assert (Hone1 : one_window rl (w :: done)).
    { intros a b Ha Hb. apply Hone.
      - destruct Ha as [<-|Ha]; [now left | right; apply in_or_app; now right].
      - destruct Hb as [<-|Hb]; [now left | right; apply in_or_app; now right]. }
    pose proof (sliding_window_step w cache_key rl done c
                  (Hh w (or_introl eq_refl)) Hr Hw Hinv Hone1) as Hstep.
    simpl. destruct (Z.of_nat (length done) <? requests rl) eqn:Hlt.
    + destruct Hstep as (r & c1 & Hc & Ha & _ & Hb & Hinv1). rewrite Hc. simpl.
      destruct (IH (w :: done) c1) as (rs & c' & Hrun & Hlen & Hall); auto.
      { intros w0 Hin. specialize (Hh w0 (or_intror Hin)).
        destruct Hh as [Hm|Hf]; [left; congruence | now right]. }
      { intros a b Ha' Hb'. apply Hone.
        - apply in_app_or in Ha' as [Ha'|[<-|Ha']];
            [right; apply in_or_app; now left | now left
            | right; apply in_or_app; now right].
        - apply in_app_or in Hb' as [Hb'|[<-|Hb']];
            [right; apply in_or_app; now left | now left
            | right; apply in_or_app; now right]. }
      rewrite Hrun. simpl. exists (r :: rs), c'. split; [reflexivity|].
      split; [simpl; congruence|].
      intros [|i] r' Hi; simpl in Hi.
      * inversion Hi; subst. rewrite Nat.add_0_r. congruence.
      * rewrite (Hall i r' Hi). simpl. f_equal. lia.
    + destruct Hstep as (r & Hc & Ha). rewrite Hc. simpl.
      destruct (IH done c) as (rs & c' & Hrun & Hlen & Hall); auto.
      { intros w0 Hin. apply Hh. now right. }
      { intros a b Ha' Hb'. apply Hone; now right. }
      rewrite Hrun. simpl. exists (r :: rs), c'. split; [reflexivity|].
      split; [simpl; congruence|].
      intros [|i] r' Hi; simpl in Hi.
      * inversion Hi; subst. rewrite Nat.add_0_r. congruence.
      * rewrite (Hall i r' Hi). apply Z.ltb_ge in Hlt.
        symmetry. destruct (Z.of_nat (length done + S i) <? requests rl) eqn:E.
        { apply Z.ltb_lt in E. lia. }
        destruct (Z.of_nat (length done + i) <? requests rl) eqn:E'; [|reflexivity].
        apply Z.ltb_lt in E'. lia.
Qed.

(** X1 (the sliding-window half of C4): from an empty cache, with no failing
    cache call, sliding-window checks that fall in one window are allowed
    for the first [limit] of them and denied from the next one on. *)
Theorem sliding_window_admits_exactly_limit (b : backend) (cache_key : string)
    (rl : RateLimit) (ws : list world) :
  0 < requests rl → 0 < window rl →
  (∀ w, In w ws → healthy w (empty_cache b)) →
  one_window rl ws →
  ∃ rs c', run_checks (fun w => _check_sliding_window w cache_key rl) ws
             (empty_cache b) = Ok (rs, c') ∧
           length rs = length ws ∧
           ∀ i r, rs !! i = Some r → allowed r = (Z.of_nat i <? requests rl).
Proof.
  intros Hr Hw Hf Hone.
  apply (sliding_window_run cache_key rl ws [] (empty_cache b)); auto.
  - reflexivity.
  - now rewrite app_nil_r.
Qed.

Lemma sliding_window_admits_exactly_limit_witness :
  ∃ rs c', run_checks
             (fun w => _check_sliding_window w "k" (three_per_minute SLIDING_WINDOW))
             (replicate 4 (at_time 1000)) (empty_cache RedisCache) = Ok (rs, c') ∧
           length rs = 4%nat ∧
           ∀ i r, rs !! i = Some r → allowed r = (Z.of_nat i <? 3).
Proof.
  refine (sliding_window_admits_exactly_limit RedisCache "k"
            (three_per_minute SLIDING_WINDOW) (replicate 4 (at_time 1000)) _ _ _ _).
  - simpl; lia.
  - simpl; lia.
  - intros w Hin. simpl in Hin.
    destruct Hin as [<-|[<-|[<-|[<-|[]]]]]; right; split; reflexivity.
  - intros w w' Hin Hin'. simpl in Hin, Hin'.
    destruct Hin as [<-|[<-|[<-|[<-|[]]]]];
      destruct Hin' as [<-|[<-|[<-|[<-|[]]]]];
      (split; [unfold Qle; simpl; lia | vm_compute; reflexivity]).
Defined.

(** ** Token bucket *)

Lemma inject_Z_pos (n : Z) : 0 < n → (0 < inject_Z n)%Q.
Proof. intros H. change 0%Q with (inject_Z 0). now rewrite <- Zlt_Qlt. Qed.

Lemma py_int_floor (x : Q) :
  (0 <= x)%Q → (inject_Z (py_int x) <= x)%Q ∧ (x < inject_Z (py_int x) + 1)%Q.
Proof.
  intros H. split; [now apply py_int_le_self|].
  pose proof (py_int_bounds x) as [Hlo _]. lra.
Qed.


(** The specification's scenario: 5 tokens per 5 seconds with burst 5. Five
    checks at once pass, the sixth is denied with [retry_after = 1], and two
    seconds later two more pass. *)
Example token_bucket_scenario :
  result_of (run_checks
               (fun w => check_with w "k"
                  {| requests := 5; window := 5; strategy := TOKEN_BUCKET;
                     burst := Some 5 |})
               (replicate 6 (at_time 1000) ++ replicate 3 (at_time 1002))
               (empty_cache InMemoryCache))
  = Ok [ {| allowed := true; remaining := 4; reset_time := 1005; retry_after := None |};
         {| allowed := true; remaining := 3; reset_time := 1005; retry_after := None |};
         {| allowed := true; remaining := 2; reset_time := 1005; retry_after := None |};
         {| allowed := true; remaining := 1; reset_time := 1005; retry_after := None |};
         {| allowed := true; remaining := 0; reset_time := 1005; retry_after := None |};
         {| allowed := false; remaining := 0; reset_time := 1001; retry_after := Some 1 |};
         {| allowed := true; remaining := 1; reset_time := 1007; retry_after := None |};
         {| allowed := true; remaining := 0; reset_time := 1007; retry_after := None |};
         {| allowed := false; remaining := 0; reset_time := 1003; retry_after := Some 1 |} ].
Proof. vm_compute. reflexivity. Qed.

Lemma spec_rate_pos (rl : RateLimit) :
  0 < requests rl → 0 < window rl → (0 < spec_rate rl)%Q.
Proof.
  intros Hr Hw. unfold spec_rate.
  apply Qlt_shift_div_l; [now apply inject_Z_pos|].
  rewrite Qmult_0_l. now apply inject_Z_pos.
Qed.

(** The tokens a refill adds: the truncated binary64 product, which is off
    the exact product by the truncation and by at most [rounding_slack] of
    it. *)
Lemma tokens_to_add_bounds (rl : RateLimit) (elapsed : Q) :
  0 < requests rl → 0 < window rl → (0 <= elapsed)%Q →
  0 <= tokens_to_add rl elapsed ∧
  (elapsed * spec_rate rl * (1 - rounding_slack) - 1
   < inject_Z (tokens_to_add rl elapsed))%Q ∧
  (inject_Z (tokens_to_add rl elapsed)
   <= elapsed * spec_rate rl * (1 + rounding_slack))%Q.
Proof.
  intros Hr Hw He. pose proof (spec_rate_pos rl Hr Hw) as Hrate.
  unfold tokens_to_add. fold (spec_rate rl).
  destruct (binary64_product_bounds elapsed (spec_rate rl) He
              (Qlt_le_weak _ _ Hrate)) as [Hlo Hhi].
  set (P := binary64 (binary64 elapsed * binary64 (spec_rate rl))) in *.
  assert (HP : (0 <= P)%Q).
  { apply binary64_nonneg. apply Qmult_le_0_compat; apply binary64_nonneg;
      [assumption | now apply Qlt_le_weak]. }
  destruct (py_int_floor P HP) as [H1 H2].
  split; [now apply py_int_nonneg_result|]. split; lra.
Qed.




(** The rounding is visible. At one token per 49 seconds, 49 seconds after
    the last refill the exact product is 1 and the code adds no token:
    [1/49] rounds down, and so does 49 times it. At one token per 105
    seconds, one float short of 105 seconds the exact product is below 1 and
    the code adds a token. *)
Example token_bucket_rounding :
  (49 * spec_rate (bucket_of 1 49) == 1)%Q ∧
  tokens_to_add (bucket_of 1 49) 49 = 0 ∧
  _check_token_bucket (at_time 149) "k" (bucket_of 1 49) cache_with_drained_bucket
  = Ok ({| allowed := false; remaining := 0; reset_time := 198;
           retry_after := Some 49 |}, cache_with_drained_bucket) ∧
  ((105 - (1 # 2 ^ 46)) * spec_rate (bucket_of 1 105) < 1)%Q ∧
  tokens_to_add (bucket_of 1 105) (105 - (1 # 2 ^ 46)) = 1.
Proof. repeat split; vm_compute; reflexivity. Qed.


(** Where a denial leaves the bucket: the Redis backend keeps what it had
    (nothing is written on the deny path), while the in-memory backend now
    holds the refilled bucket with [last_refill = now], because the check
    assigned to the stored dict itself. *)
Lemma token_bucket_denial_state (w : world) (cache_key : string) (rl : RateLimit)
    (c : CacheService) (e : entry) (b : bucket) :
  0 < requests rl → 0 < window rl → get_fails w = false →
  data c !! (cache_key +:+ ":bucket") = Some e →
  entry_value e = VBucket b → live (now w) e = true →
  tokens (refill rl (now w) b) < 1 →
  ∃ r c', _check_token_bucket w cache_key rl c = Ok (r, c') ∧
          allowed r = false ∧
          match current_cache c with
          | RedisCache => c' = c
          | InMemoryCache =>
              data c' !! (cache_key +:+ ":bucket")
              = Some (Entry (VBucket (refill rl (now w) b)) (expires_at e))
          end.
Proof.
  intros Hr Hw Hg Hk Hv Hl Hlt.
  assert (Hget : cache_get w (cache_key +:+ ":bucket") c = (Some (VBucket b), c)).
  { unfold cache_get, RedisCache_get, InMemoryCache_get, redis_lookup.
    rewrite Hk, Hl, Hg, Hv. now destruct (current_cache c). }
  unfold _check_token_bucket. rewrite Hget. simpl.
  destruct (window rl =? 0) eqn:Hz; [lia|].
  destruct (_ <? 1) eqn:Hlt'.
  2:{ apply Z.ltb_ge in Hlt'. unfold refill in Hlt. simpl in Hlt. lia. }
  destruct (requests rl =? 0) eqn:Hz'; [lia|].
  eexists _, _. split; [reflexivity|]. split; [reflexivity|].
  unfold assign_in_place. destruct (current_cache c); [reflexivity|].
  simpl. rewrite lookup_alter_eq, Hk. reflexivity.
Qed.

(** ** The remaining count *)







(** ** The reset time *)

Lemma py_int_lt_inject (x : Q) (n : Z) : py_int x < n → (x < inject_Z n)%Q.
Proof.
  intros H. pose proof (py_int_bounds x) as [Hlo _].
  assert (Hle : (inject_Z (py_int x + 1) <= inject_Z n)%Q)
    by (rewrite <- Zle_Qle; lia).
  rewrite inject_Z_plus in Hle. change (inject_Z 1) with 1%Q in Hle. lra.
Qed.

Lemma fold_min_in (r : list Z) (x : Z) : In (fold_left Z.min r x) (x :: r).
Proof.
  revert x. induction r as [|y r IH]; intros x; simpl; [now left|].
  destruct (IH (Z.min x y)) as [H|H].
  - rewrite <- H. destruct (Z.min_spec x y) as [[_ E]|[_ E]]; rewrite E; auto.
  - auto.
Qed.

Lemma py_min_in (xs : list Z) (m : Z) : py_min xs = Ok m → In m xs.
Proof.
  destruct xs as [|x r]; simpl; [discriminate|].
  intros H. inversion H. apply fold_min_in.
Qed.








(** ** Failing open *)

Lemma max_tokens_pos (rl : RateLimit) : well_formed rl → 0 < max_tokens rl.
Proof.
  intros (Hr & Hw & Hb). unfold max_tokens.
  destruct (burst rl) as [b|] eqn:E; [|exact Hr].
  specialize (Hb b eq_refl). destruct (b =? 0); assumption.
Qed.

Lemma fixed_window_fails_open (w : world) (cache_key : string) (rl : RateLimit)
    (c : CacheService) :
  current_cache c = RedisCache → well_formed rl →
  (get_fails w = true →
     ∃ r c', _check_fixed_window w cache_key rl c = Ok (r, c') ∧ allowed r = true) ∧
  (∀ r c', _check_fixed_window w cache_key rl c = Ok (r, c') →
     log c' ≠ log c → allowed r = true).
Proof.
  intros Hb (Hr & Hw & _). destruct c as [b d l]. simpl in Hb. subst b.
  unfold _check_fixed_window.
  destruct (window rl =? 0) eqn:Hz; [lia|].
  unfold cache_get, increment_rate_limit, RedisCache_get. simpl.
  split.
  - intros Hg. rewrite Hg. simpl.
    destruct (0 >=? requests rl) eqn:Hge; [lia|].
    simpl. destruct (RedisCache_increment _ _ _ _ _ _) as [n c2].
    eexists _, _. split; reflexivity.
  - intros r c'. destruct (get_fails w).
    + simpl. destruct (0 >=? requests rl) eqn:Hge; [lia|]. simpl.
      destruct (RedisCache_increment _ _ _ _ _ _) as [n c2].
      intros H _. now inversion H.
    + destruct (count_or_zero _) as [n|e]; simpl; [|discriminate].
      destruct (n >=? requests rl).
      * intros H Hl. inversion H; subst. now contradiction Hl.
      * simpl. destruct (RedisCache_increment _ _ _ _ _ _) as [n' c2].
        intros H _. now inversion H.
Qed.

Lemma sliding_window_fails_open (w : world) (cache_key : string) (rl : RateLimit)
    (c : CacheService) :
  current_cache c = RedisCache → well_formed rl →
  (get_fails w = true →
     ∃ r c', _check_sliding_window w cache_key rl c = Ok (r, c') ∧ allowed r = true) ∧
  (∀ r c', _check_sliding_window w cache_key rl c = Ok (r, c') →
     log c' ≠ log c → allowed r = true).
Proof.
  intros Hb (Hr & Hw & _). destruct c as [b d l]. simpl in Hb. subst b.
  unfold _check_sliding_window, cache_get, RedisCache_get. simpl.
  split.
  - intros Hg. rewrite Hg. simpl.
    destruct (_ >=? requests rl) eqn:Hge;
      [rewrite Z.geb_leb in Hge; apply Z.leb_le in Hge; simpl in Hge; lia|].
    destruct (cache_set _ _ _ _ _) as [ok c2].
    eexists _, _. split; reflexivity.
  - intros r c'. destruct (get_fails w).
    + simpl. destruct (_ >=? requests rl) eqn:Hge;
      [rewrite Z.geb_leb in Hge; apply Z.leb_le in Hge; simpl in Hge; lia|].
      destruct (cache_set _ _ _ _ _) as [ok c2].
      intros H _. now inversion H.
    + destruct (timestamps_or_empty _) as [ts|e]; simpl; [|discriminate].
      destruct (_ >=? requests rl).
      * destruct (py_min _) as [m|e]; simpl; [|discriminate].
        intros H Hl. inversion H; subst. now contradiction Hl.
      * destruct (cache_set _ _ _ _ _) as [ok c2].
        intros H _. now inversion H.
Qed.

Lemma tokens_to_add_no_time (rl : RateLimit) (t : Q) :
  tokens_to_add rl (t - t) = 0.
Proof.
  unfold tokens_to_add.
  assert (H0 : binary64 (t - t) = 0%Q).
  { apply binary64_zero. destruct t as [n d]. simpl. ring. }
  rewrite H0. rewrite binary64_zero; reflexivity.
Qed.

Lemma token_bucket_fails_open (w : world) (cache_key : string) (rl : RateLimit)
    (c : CacheService) :
  current_cache c = RedisCache → well_formed rl →
  (get_fails w = true →
     ∃ r c', _check_token_bucket w cache_key rl c = Ok (r, c') ∧ allowed r = true) ∧
  (∀ r c', _check_token_bucket w cache_key rl c = Ok (r, c') →
     log c' ≠ log c → allowed r = true).
Proof.
  intros Hb Hwf. pose proof (max_tokens_pos rl Hwf) as Hm.
  destruct Hwf as (Hr & Hw & _).
  destruct c as [b d l]. simpl in Hb. subst b.
  unfold _check_token_bucket, cache_get, RedisCache_get. simpl.
  split.
  - intros Hg. rewrite Hg. simpl.
    destruct (window rl =? 0) eqn:Hz; [lia|].
    destruct (_ <? 1) eqn:Hlt.
    { rewrite tokens_to_add_no_time in Hlt. lia. }
    destruct (cache_set _ _ _ _ _) as [ok c2].
    eexists _, _. split; reflexivity.
  - intros r c'. destruct (get_fails w).
    + simpl. destruct (window rl =? 0) eqn:Hz; [lia|].
      destruct (_ <? 1) eqn:Hlt.
      { rewrite tokens_to_add_no_time in Hlt. lia. }
      destruct (cache_set _ _ _ _ _) as [ok c2].
      intros H _. now inversion H.
    + destruct (bucket_or_default _ _) as [[bd stored]|e]; simpl; [|discriminate].
      destruct (window rl =? 0) eqn:Hz; [lia|].
      destruct (_ <? 1).
      * destruct (requests rl =? 0); [discriminate|].
        intros H Hl. inversion H; subst. now contradiction Hl.
      * destruct (cache_set _ _ _ _ _) as [ok c2].
        intros H _. now inversion H.
Qed.

Lemma check_with_fails_open (w : world) (cache_key : string) (rl : RateLimit)
    (c : CacheService) :
  current_cache c = RedisCache → well_formed rl →
  (get_fails w = true →
     ∃ r c', check_with w cache_key rl c = Ok (r, c') ∧ allowed r = true) ∧
  (∀ r c', check_with w cache_key rl c = Ok (r, c') →
     log c' ≠ log c → allowed r = true).
Proof.
  intros Hb Hwf. unfold check_with. destruct (strategy rl).
  - now apply fixed_window_fails_open.
  - now apply sliding_window_fails_open.
  - now apply token_bucket_fails_open.
Qed.

Lemma limit_well_formed (n w : Z) : 0 < n → 0 < w → well_formed (limit n w).
Proof. intros Hn Hw. repeat split; simpl; try assumption. discriminate. Qed.

(** Every configuration the deployed limiter can check against is
    well formed. *)
Lemma deployed_limits_well_formed (limit_type : string) (is_premium : bool)
    (rl : RateLimit) :
  rate_limit_for rate_limiter limit_type is_premium = Ok rl → well_formed rl.
Proof.
  unfold rate_limit_for.
  assert (Hg : default_limits rate_limiter !! "global" = Some (limit 1000 3600))
    by (vm_compute; reflexivity).
  rewrite Hg.
  destruct ((if is_premium then premium_limits rate_limiter
             else default_limits rate_limiter) !! limit_type) as [found|] eqn:Hl;
    simpl; intros H; inversion H; subst; clear H.
  2:{ apply limit_well_formed; lia. }
  destruct is_premium; cbv [rate_limiter default_limits premium_limits] in Hl;
    apply elem_of_list_to_map_2 in Hl;
    repeat (apply elem_of_cons in Hl as [Hl|Hl];
            [inversion Hl; subst; apply limit_well_formed; lia|]);
    now apply elem_of_nil in Hl.
Qed.

Corollary deployed_check_fails_open (w : world) (identifier limit_type : string)
    (is_premium : bool) (c : CacheService) :
  current_cache c = RedisCache → get_fails w = true →
  ∃ r c', check_rate_limit rate_limiter w identifier limit_type is_premium c
          = Ok (r, c') ∧ allowed r = true.
Proof.
  intros Hb Hg.
  destruct (rate_limit_for rate_limiter limit_type is_premium) as [rl|e] eqn:Hrl.
  - pose proof (deployed_limits_well_formed _ _ _ Hrl) as Hwf.
    unfold check_rate_limit. rewrite Hrl. simpl.
    now apply (check_with_fails_open w _ rl c Hb Hwf).
  - exfalso. revert Hrl. unfold rate_limit_for.
    assert (Hgl : default_limits rate_limiter !! "global" = Some (limit 1000 3600))
      by (vm_compute; reflexivity).
    rewrite Hgl. discriminate.
Qed.

Lemma raise_not_from_store (w : world) (cache_key : string) (rl : RateLimit)
    (c : CacheService) (e : exn) :
  current_cache c = RedisCache → well_formed rl →
  check_with w cache_key rl c = Raise e →
  get_fails w = false ∧
  ∀ fails, check_with (with_write_fails fails w) cache_key rl c = Raise e.
Proof.
  intros Hb Hwf Hraise.
  destruct (get_fails w) eqn:Hg.
  { destruct (proj1 (check_with_fails_open w cache_key rl c Hb Hwf) Hg)
      as (r & c' & H & _). congruence. }
  split; [reflexivity|]. intros fails. revert Hraise.
  destruct c as [b d l]. simpl in Hb. subst b.
  unfold check_with. destruct (strategy rl).
  - unfold _check_fixed_window, cache_get, increment_rate_limit, RedisCache_get.
    simpl. rewrite Hg.
    destruct (window rl =? 0); [auto|].
    destruct (count_or_zero _) as [n|ex]; simpl; [|auto].
    destruct (n >=? requests rl); [discriminate|].
    destruct (RedisCache_increment (write_fails w) _ _ _ _ _). discriminate.
  - unfold _check_sliding_window, cache_get, RedisCache_get. simpl. rewrite Hg.
    destruct (timestamps_or_empty _) as [ts|ex]; simpl; [|auto].
    destruct (_ >=? requests rl).
    + destruct (py_min _); simpl; [discriminate|auto].
    + destruct (cache_set w _ _ _ _). discriminate.
  - unfold _check_token_bucket, cache_get, RedisCache_get. simpl. rewrite Hg.
    destruct (bucket_or_default _ _) as [[bd stored]|ex]; simpl; [|auto].
    destruct (window rl =? 0); [auto|].
    destruct (_ <? 1).
    + destruct (requests rl =? 0); [auto|discriminate].
    + destruct (cache_set w _ _ _ _). discriminate.
Qed.

(** C7: on the Redis backend, for a well-formed configuration: when the
    read of a check fails, the check returns and allows, whatever the cache
    holds and whether or not the write fails too; whenever a check that
    returns has logged a failed operation (get, set or increment), it
    allowed the request; and an exception out of a check never stems from
    a store failure: the read did not fail, and the same exception is raised
    whether or not the write would fail. *)
Theorem store_failure_fails_open (self : RateLimiter) (w : world)
    (identifier limit_type : string) (is_premium : bool) (rl : RateLimit)
    (c : CacheService) :
  current_cache c = RedisCache →
  rate_limit_for self limit_type is_premium = Ok rl →
  well_formed rl →
  (get_fails w = true →
     ∃ r c', check_rate_limit self w identifier limit_type is_premium c = Ok (r, c') ∧
             allowed r = true) ∧
  (∀ r c', check_rate_limit self w identifier limit_type is_premium c = Ok (r, c') →
     log c' ≠ log c → allowed r = true) ∧
  (∀ e, check_rate_limit self w identifier limit_type is_premium c = Raise e →
     get_fails w = false ∧
     ∀ fails, check_rate_limit self (with_write_fails fails w) identifier limit_type
                is_premium c = Raise e).
Proof.
  intros Hb Hrl Hwf. unfold check_rate_limit. rewrite Hrl. simpl.
  destruct (check_with_fails_open w
              ("rate_limit:" +:+ limit_type +:+ ":" +:+ identifier) rl c Hb Hwf)
    as [H1 H2].
  split; [exact H1|]. split; [exact H2|].
  intros e He. now apply raise_not_from_store.
Qed.

Lemma store_failure_fails_open_witness :
  ∃ r c', check_rate_limit rate_limiter (redis_down 1000) "user:alice" "upload"
            false (empty_cache RedisCache) = Ok (r, c') ∧
          allowed r = true.
Proof.
  refine (proj1 (store_failure_fails_open rate_limiter (redis_down 1000)
                   "user:alice" "upload" false (limit 10 3600)
                   (empty_cache RedisCache) _ _ _) _).
  - reflexivity.
  - vm_compute. reflexivity.
  - repeat split; simpl; try lia. discriminate.
  - reflexivity.
Defined.

(** ** Round trips of the cache *)

(** What a key reads at time [t]: the value of its entry, while it lasts. *)
Lemma cache_get_value (w : world) (k : string) (c : CacheService) :
  healthy w c →
  (cache_get w k c).1
  = match data c !! k with
    | Some e => if live (now w) e then Some (entry_value e) else None
    | None => None
    end.
Proof.
  intros Hh. unfold cache_get, RedisCache_get, InMemoryCache_get, redis_lookup.
  destruct Hh as [Hb|[Hg _]].
  - rewrite Hb. destruct (data c !! k) as [e|]; [|reflexivity].
    now destruct (live (now w) e).
  - destruct (current_cache c).
    + now rewrite Hg.
    + destruct (data c !! k) as [e|]; [|reflexivity]. now destruct (live (now w) e).
Qed.

Lemma cache_get_keeps_backend (w : world) (k : string) (c : CacheService) :
  current_cache (cache_get w k c).2 = current_cache c.
Proof.
  unfold cache_get, RedisCache_get, InMemoryCache_get.
  destruct (current_cache c) eqn:Hb.
  - now destruct (get_fails w).
  - destruct (data c !! k) as [e|]; [|exact Hb]. now destruct (live (now w) e).
Qed.

Lemma healthy_same_backend (w : world) (c c' : CacheService) :
  current_cache c' = current_cache c → healthy w c → healthy w c'.
Proof. intros Hb [H|H]; [left; congruence | now right]. Qed.

(** X5 (round trip of the cache): while no cache call fails, a [set] with a
    positive time to live answers [True], and a later [get] of that key
    returns the value set as long as the clock is before the instant of the
    [set] plus the time to live, and [None] from then on. *)
Theorem set_then_get (w w' : world) (k : string) (v : value) (ttl : Z)
    (c : CacheService) :
  healthy w c → healthy w' c → 0 < ttl →
  (cache_set w k v ttl c).1 = true ∧
  (cache_get w' k (cache_set w k v ttl c).2).1
  = if Qlt_bool (now w') (now w + inject_Z ttl)%Q then Some v else None.
Proof.
  intros Hh Hh' Ht. rewrite (cache_set_healthy w k v ttl c Hh Ht). simpl.
  split; [reflexivity|].
  rewrite cache_get_value by (eapply healthy_same_backend; [|exact Hh']; reflexivity).
  simpl. rewrite lookup_insert_eq. unfold live, after. simpl.
  now destruct (Qlt_bool _ _).
Qed.

Lemma set_then_get_witness :
  (cache_get (at_time 1059) "k" (cache_set (at_time 1000) "k" (VInt 7) 60
                                   (empty_cache RedisCache)).2).1
  = if Qlt_bool (now (at_time 1059)) (now (at_time 1000) + inject_Z 60)%Q
    then Some (VInt 7) else None.
Proof.
  refine (proj2 (set_then_get (at_time 1000) (at_time 1059) "k" (VInt 7) 60
                   (empty_cache RedisCache) _ _ _)).
  - right. split; reflexivity.
  - right. split; reflexivity.
  - lia.
Defined.

(** ** Writes to one key and reads of another *)

Lemma cache_get_value_frame (w : world) (k : string) (c c' : CacheService) :
  current_cache c' = current_cache c → data c' !! k = data c !! k →
  (cache_get w k c').1 = (cache_get w k c).1.
Proof.
  intros Hb Hd. unfold cache_get, RedisCache_get, InMemoryCache_get, redis_lookup.
  rewrite Hb, Hd. destruct (current_cache c).
  - now destruct (get_fails w).
  - destruct (data c !! k) as [e|]; [|reflexivity]. now destruct (live (now w) e).
Qed.

Lemma cache_set_frame (w : world) (k k' : string) (v : value) (ttl : Z)
    (c : CacheService) :
  k' ≠ k →
  current_cache (cache_set w k v ttl c).2 = current_cache c ∧
  data (cache_set w k v ttl c).2 !! k' = data c !! k'.
Proof.
  intros Hne. unfold cache_set, RedisCache_set, InMemoryCache_set.
  destruct (current_cache c) eqn:Hb.
  - destruct (write_fails w || (ttl <=? 0)); simpl; split; auto.
    now apply lookup_insert_ne.
  - simpl. split; auto. now apply lookup_insert_ne.
Qed.

Lemma cache_delete_frame (w : world) (k k' : string) (c : CacheService) :
  k' ≠ k →
  current_cache (cache_delete w k c).2 = current_cache c ∧
  data (cache_delete w k c).2 !! k' = data c !! k'.
Proof.
  intros Hne. unfold cache_delete, RedisCache_delete, InMemoryCache_delete.
  destruct (current_cache c) eqn:Hb.
  - destruct (write_fails w); simpl; [auto|].
    destruct (redis_lookup _ _ _); simpl; split; auto. now apply lookup_delete_ne.
  - destruct (data c !! k); simpl; split; auto. now apply lookup_delete_ne.
Qed.

Lemma increment_frame (w : world) (identifier k' : string) (win n : Z)
    (c c' : CacheService) :
  increment_rate_limit w identifier win c = Ok (n, c') →
  k' ≠ "rate_limit:" +:+ identifier →
  current_cache c' = current_cache c ∧ data c' !! k' = data c !! k'.
Proof.
  intros H Hne. unfold increment_rate_limit in H.
  destruct (current_cache c) eqn:Hb.
  - unfold RedisCache_increment in H. destruct (write_fails w).
    + inversion H; subst; simpl; auto.
    + destruct (redis_lookup _ _ _) as [[m|ts|bk]|]; inversion H; subst; simpl;
        (split; [assumption | now apply lookup_insert_ne]).
  - unfold cache_get, cache_set in H. rewrite Hb in H.
    destruct (InMemoryCache_get _ _ _) as [got c1] eqn:Hget.
    assert (Hc1 : current_cache c1 = InMemoryCache ∧ data c1 !! k' = data c !! k').
    { unfold InMemoryCache_get in Hget.
      destruct (data c !! _) as [e|]; [destruct (live (now w) e)|];
        inversion Hget; subst; simpl; split; auto.
      now apply lookup_delete_ne. }
    destruct Hc1 as [Hb1 Hd1].
    destruct (or_zero_plus_one got) as [m|ex]; simpl in H; [|discriminate].
    rewrite Hb1 in H. unfold InMemoryCache_set in H. inversion H; subst; simpl.
    split; [congruence|]. rewrite lookup_insert_ne by congruence. exact Hd1.
Qed.

(** X6: a [set], a [delete] or an [increment_rate_limit] on one key does not
    change what any [get] of another key returns, on either backend and
    whether or not the write fails. *)
Theorem other_keys_unaffected (w w' : world) (k k' : string) (c : CacheService) :
  k' ≠ k →
  (∀ v ttl, (cache_get w' k' (cache_set w k v ttl c).2).1 = (cache_get w' k' c).1) ∧
  (cache_get w' k' (cache_delete w k c).2).1 = (cache_get w' k' c).1 ∧
  (∀ identifier win n c1,
     k = "rate_limit:" +:+ identifier →
     increment_rate_limit w identifier win c = Ok (n, c1) →
     (cache_get w' k' c1).1 = (cache_get w' k' c).1).
Proof.
  intros Hne. split; [|split].
  - intros v ttl. destruct (cache_set_frame w k k' v ttl c Hne).
    now apply cache_get_value_frame.
  - destruct (cache_delete_frame w k k' c Hne). now apply cache_get_value_frame.
  - intros identifier win n c1 -> H.
    destruct (increment_frame w identifier k' win n c c1 H Hne).
    now apply cache_get_value_frame.
Qed.

Lemma other_keys_unaffected_witness :
  (cache_get (at_time 1001) "session:u1"
     (cache_delete (at_time 1000) "session:u2" cache_with_full_window).2).1
  = (cache_get (at_time 1001) "session:u1" cache_with_full_window).1.
Proof.
  refine (proj1 (proj2 (other_keys_unaffected (at_time 1000) (at_time 1001)
                          "session:u2" "session:u1" cache_with_full_window _))).
  discriminate.
Defined.

(** ** Delete, exists and clear *)

Lemma live_later (t t' : Q) (e : entry) :
  (t <= t')%Q → live t' e = true → live t e = true.
Proof.
  unfold live. intros Hle H. apply Qlt_bool_iff in H. apply Qlt_bool_iff.
  eapply Qle_lt_trans; eassumption.
Qed.

Lemma cache_exists_get (w : world) (k : string) (c : CacheService) :
  (cache_exists w k c).1
  = match (cache_get w k c).1 with Some _ => true | None => false end.
Proof.
  unfold cache_exists, cache_get, RedisCache_exists, RedisCache_get,
    InMemoryCache_exists.
  destruct (current_cache c).
  - now destruct (get_fails w).
  - now destruct (InMemoryCache_get _ _ _).
Qed.

(** X7: while no cache call fails and the clock does not go back, after
    [delete] of a key [get] returns [None] and [exists] answers [False] for
    it; and [delete] answers [True] whenever [exists] did. *)
Theorem delete_then_absent (w w' : world) (k : string) (c : CacheService) :
  healthy w c → healthy w' c → (now w <= now w')%Q →
  (cache_get w' k (cache_delete w k c).2).1 = None ∧
  (cache_exists w' k (cache_delete w k c).2).1 = false ∧
  ((cache_exists w k c).1 = true → (cache_delete w k c).1 = true).
Proof.
  intros Hh Hh' Hle.
  assert (Hb : current_cache (cache_delete w k c).2 = current_cache c).
  { unfold cache_delete, RedisCache_delete, InMemoryCache_delete.
    destruct (current_cache c) eqn:Hb.
    - destruct (write_fails w); [assumption|]. now destruct (redis_lookup _ _ _).
    - now destruct (data c !! k). }
  assert (Hget : (cache_get w' k (cache_delete w k c).2).1 = None).
  { rewrite cache_get_value by (eapply healthy_same_backend; eassumption).
    unfold cache_delete, RedisCache_delete, InMemoryCache_delete, redis_lookup.
    destruct (current_cache c) eqn:Hc.
    - destruct Hh as [Hm|[_ Hw]]; [congruence|]. rewrite Hw.
      destruct (data c !! k) as [e|] eqn:He; simpl.
      + destruct (live (now w) e) eqn:Hl; simpl.
        * now rewrite lookup_delete_eq.
        * rewrite He. destruct (live (now w') e) eqn:Hl'; [|reflexivity].
          rewrite (live_later _ _ _ Hle Hl') in Hl. discriminate.
      + now rewrite He.
    - destruct (data c !! k) as [e|] eqn:He; simpl.
      + now rewrite lookup_delete_eq.
      + now rewrite He. }
  split; [exact Hget|]. split.
  - rewrite cache_exists_get. now rewrite Hget.
  - rewrite cache_exists_get. rewrite cache_get_value by assumption.
    unfold cache_delete, RedisCache_delete, InMemoryCache_delete, redis_lookup.
    destruct (current_cache c) eqn:Hc.
    + destruct Hh as [Hm|[_ Hw]]; [congruence|]. rewrite Hw.
      destruct (data c !! k) as [e|]; [|discriminate].
      now destruct (live (now w) e).
    + destruct (data c !! k) as [e|]; [reflexivity|discriminate].
Qed.

Lemma delete_then_absent_witness :
  (cache_get (at_time 1001) "k:timestamps"
     (cache_delete (at_time 1000) "k:timestamps" cache_with_full_window).2).1 = None.
Proof.
  refine (proj1 (delete_then_absent (at_time 1000) (at_time 1001) "k:timestamps"
                   cache_with_full_window _ _ _)).
  - right. split; reflexivity.
  - right. split; reflexivity.
  - unfold Qle; simpl; lia.
Defined.

(** The in-memory [delete] does not test the expiry: on an entry that has
    run out it answers [True] although [exists] answers [False]. *)
Lemma delete_of_expired_entry (w : world) (k : string) (c : CacheService)
    (e : entry) :
  current_cache c = InMemoryCache → data c !! k = Some e →
  live (now w) e = false →
  (cache_exists w k c).1 = false ∧ (cache_delete w k c).1 = true.
Proof.
  intros Hb Hk Hl.
  unfold cache_exists, cache_delete, InMemoryCache_exists, InMemoryCache_get,
    InMemoryCache_delete.
  now rewrite Hb, Hk, Hl.
Qed.

(** X8: [clear] on the in-memory cache, or on Redis when FLUSHDB does not
    fail, answers [True], and afterwards every [get] returns [None] and
    every [exists] answers [False]. *)
Theorem clear_empties (w w' : world) (k : string) (c : CacheService) :
  current_cache c = InMemoryCache ∨ write_fails w = false →
  (cache_clear w c).1 = true ∧
  (cache_get w' k (cache_clear w c).2).1 = None ∧
  (cache_exists w' k (cache_clear w c).2).1 = false.
Proof.
  intros Hh.
  assert (Hc : cache_clear w c = (true, with_data c ∅)).
  { unfold cache_clear, RedisCache_clear, InMemoryCache_clear.
    destruct Hh as [Hb|Hw]; [now rewrite Hb|].
    rewrite Hw. now destruct (current_cache c). }
  rewrite Hc. simpl. split; [reflexivity|].
  assert (Hg : (cache_get w' k (with_data c ∅)).1 = None).
  { unfold cache_get, RedisCache_get, InMemoryCache_get, redis_lookup. simpl.
    rewrite lookup_empty. destruct (current_cache c); [|reflexivity].
    now destruct (get_fails w'). }
  split; [exact Hg|]. rewrite cache_exists_get. now rewrite Hg.
Qed.

Lemma clear_empties_witness :
  (cache_get (at_time 1000) "k:timestamps"
     (cache_clear (at_time 1000) cache_with_full_window).2).1 = None.
Proof.
  refine (proj1 (proj2 (clear_empties (at_time 1000) (at_time 1000) "k:timestamps"
                          cache_with_full_window _))).
  right. reflexivity.
Defined.

(** ** The sweep of the in-memory cache *)

Lemma lookup_fold_delete_in (ks : list string) (d : gmap string entry) (j : string) :
  In j ks → fold_left (fun d key => delete key d) ks d !! j = None.
Proof.
  revert d. induction ks as [|k ks IH]; intros d Hin; simpl; [contradiction|].
  destruct (decide (j ∈ ks)) as [Hj|Hj].
  - apply IH. now apply list_elem_of_In.
  - destruct Hin as [->|Hin]; [|exfalso; apply Hj; now apply list_elem_of_In].
    clear IH. revert d. induction ks as [|k ks IH]; intros d; simpl.
    + apply lookup_delete_eq.
    + rewrite delete_delete. apply IH. intros H. apply Hj. now right.
Qed.

Lemma lookup_fold_delete_notin (ks : list string) (d : gmap string entry) (j : string) :
  ¬ In j ks → fold_left (fun d key => delete key d) ks d !! j = d !! j.
Proof.
  revert d. induction ks as [|k ks IH]; intros d Hnin; simpl; [reflexivity|].
  rewrite IH by (intros H; apply Hnin; now right).
  apply lookup_delete_ne. intros ->. apply Hnin. now left.
Qed.

Lemma in_expired_keys (t : Q) (c : CacheService) (k : string) :
  In k (expired_keys t c)
  ↔ ∃ e, data c !! k = Some e ∧ Qle_bool (expires_at e) t = true.
Proof.
  unfold expired_keys. rewrite in_map_iff. split.
  - intros ([k' e] & Hk & Hin). simpl in Hk. subst k'.
    apply filter_In in Hin as [Hin He]. simpl in He.
    apply list_elem_of_In, elem_of_map_to_list in Hin. eauto.
  - intros (e & Hk & He). exists (k, e). split; [reflexivity|].
    apply filter_In. split; [|exact He].
    apply list_elem_of_In, elem_of_map_to_list. exact Hk.
Qed.

Lemma cleanup_lookup (t : Q) (c : CacheService) (k : string) :
  data (cleanup_expired_round t c) !! k
  = match data c !! k with
    | Some e => if Qle_bool (expires_at e) t then None else Some e
    | None => None
    end.
Proof.
  unfold cleanup_expired_round. simpl.
  destruct (data c !! k) as [e|] eqn:He.
  - destruct (Qle_bool (expires_at e) t) eqn:Hq.
    + apply lookup_fold_delete_in. apply in_expired_keys. eauto.
    + rewrite lookup_fold_delete_notin; [exact He|].
      intros Hin. apply in_expired_keys in Hin as (e' & He' & Hq'). congruence.
  - rewrite lookup_fold_delete_notin; [exact He|].
    intros Hin. apply in_expired_keys in Hin as (e' & He' & _). congruence.
Qed.

(** X9: one round of the background sweep of the in-memory cache at time
    [t] cannot be observed by a [get] at [t] or later, whatever the key; it
    keeps exactly the entries that expire after [t]. *)
Theorem cleanup_is_invisible (t t' : Q) (k : string) (c : CacheService) :
  (t <= t')%Q →
  (InMemoryCache_get t' k (cleanup_expired_round t c)).1
  = (InMemoryCache_get t' k c).1 ∧
  (∀ e, data (cleanup_expired_round t c) !! k = Some e
        ↔ data c !! k = Some e ∧ (t < expires_at e)%Q).
Proof.
  intros Hle. split.
  - unfold InMemoryCache_get. rewrite cleanup_lookup.
    destruct (data c !! k) as [e|]; [|reflexivity].
    destruct (Qle_bool (expires_at e) t) eqn:Hq.
    + apply Qle_bool_iff in Hq.
      destruct (live t' e) eqn:Hl; [|reflexivity].
      apply Qlt_bool_iff in Hl. exfalso.
      apply (Qlt_irrefl t'). eapply Qlt_le_trans; [exact Hl|].
      eapply Qle_trans; eassumption.
    + now destruct (live t' e).
  - intros e. rewrite cleanup_lookup.
    destruct (data c !! k) as [e0|]; [|split; [discriminate | intros [H _]; discriminate]].
    destruct (Qle_bool (expires_at e0) t) eqn:Hq.
    + split; [discriminate|]. intros [H Hlt]. inversion H; subst.
      apply Qle_bool_iff in Hq. exfalso.
      apply (Qlt_irrefl t). eapply Qlt_le_trans; eassumption.
    + split.
      * intros H. inversion H; subst. split; [reflexivity|].
        apply Qnot_le_lt. intros Hc. apply Qle_bool_iff in Hc. congruence.
      * intros [H _]. exact H.
Qed.

Lemma cleanup_is_invisible_witness :
  (InMemoryCache_get 1070 "k:timestamps"
     (cleanup_expired_round 1065 cache_with_full_window)).1
  = (InMemoryCache_get 1070 "k:timestamps" cache_with_full_window).1.
Proof.
  refine (proj1 (cleanup_is_invisible 1065 1070 "k:timestamps"
                   cache_with_full_window _)).
  unfold Qle; simpl; lia.
Defined.

(** ** The counter *)

(** X10: while no cache call fails, [increment_rate_limit] on a counter that
    reads [n] (or is absent, [n = 0]) returns [n + 1], and the key
    [rate_limit:<identifier>] then reads [n + 1] until the instant of the
    increment plus the window. *)
Theorem increment_counts (w w' : world) (identifier : string) (win n : Z)
    (c : CacheService) :
  healthy w c → healthy w' c → 0 < win →
  (cache_get w ("rate_limit:" +:+ identifier) c).1 = Some (VInt n) ∨
  ((cache_get w ("rate_limit:" +:+ identifier) c).1 = None ∧ n = 0) →
  ∃ c', increment_rate_limit w identifier win c = Ok (n + 1, c') ∧
        (cache_get w' ("rate_limit:" +:+ identifier) c').1
        = if Qlt_bool (now w') (now w + inject_Z win)%Q
          then Some (VInt (n + 1)) else None.
Proof.
  intros Hh Hh' Hwin Hold.
  set (key := "rate_limit:" +:+ identifier) in *.
  assert (Hread : ∀ c', current_cache c' = current_cache c →
            data c' !! key = Some (Entry (VInt (n + 1)) (after (now w) win)) →
            (cache_get w' key c').1
            = if Qlt_bool (now w') (now w + inject_Z win)%Q
              then Some (VInt (n + 1)) else None).
  { intros c' Hb Hd.
    rewrite cache_get_value by (eapply healthy_same_backend; eassumption).
    rewrite Hd. unfold live, after. simpl. now destruct (Qlt_bool _ _). }
  unfold increment_rate_limit. fold key.
  destruct (current_cache c) eqn:Hb.
  - destruct Hh as [Hm|[Hg Hw]]; [congruence|].
    unfold cache_get, RedisCache_get in Hold. rewrite Hb, Hg in Hold. simpl in Hold.
    unfold RedisCache_increment. rewrite Hw.
    destruct Hold as [Ho|[Ho ->]]; rewrite Ho; eexists; (split; [reflexivity|]);
      apply Hread; simpl; auto; apply lookup_insert_eq.
  - unfold cache_get at 1. rewrite Hb.
    unfold cache_get in Hold. rewrite Hb in Hold.
    destruct (InMemoryCache_get (now w) key c) as [got c1] eqn:Hget.
    assert (Hb1 : current_cache c1 = InMemoryCache).
    { unfold InMemoryCache_get in Hget.
      destruct (data c !! key) as [e|]; [destruct (live (now w) e)|];
        inversion Hget; subst; auto. }
    simpl in Hold.
    assert (Hplus : or_zero_plus_one got = Ok (n + 1)).
    { destruct Hold as [->|[-> ->]]; reflexivity. }
    rewrite Hplus. simpl. unfold cache_set. rewrite Hb1. unfold InMemoryCache_set.
    eexists. split; [reflexivity|].
    apply Hread; simpl; [congruence | apply lookup_insert_eq].
Qed.

Lemma increment_counts_witness :
  ∃ c', increment_rate_limit (at_time 1000) "auth:user:alice" 300
          (empty_cache InMemoryCache) = Ok (0 + 1, c') ∧
        (cache_get (at_time 1001) ("rate_limit:" +:+ "auth:user:alice") c').1
        = if Qlt_bool (now (at_time 1001)) (now (at_time 1000) + inject_Z 300)%Q
          then Some (VInt (0 + 1)) else None.
Proof.
  refine (increment_counts (at_time 1000) (at_time 1001) "auth:user:alice" 300 0
            (empty_cache InMemoryCache) _ _ _ _).
  - left. reflexivity.
  - left. reflexivity.
  - lia.
  - right. split; reflexivity.
Defined.

(** ** The cache-key helper *)

(** X11: [generate_cache_key] joins its arguments with [:] before hashing,
    so one argument [a:b] gives the same key as the two arguments [a] and
    [b], whatever the digest function. *)
Theorem generate_cache_key_colon_collision (md5_hexdigest : string → string)
    (a b : string) (rest : list string) :
  generate_cache_key md5_hexdigest ((a +:+ ":" +:+ b) :: rest)
  = generate_cache_key md5_hexdigest (a :: b :: rest).
Proof.
  unfold generate_cache_key. f_equal.
  destruct rest as [|r rest]; [reflexivity|].
  change (join_colon ((a +:+ ":" +:+ b) :: r :: rest))
    with ((a +:+ ":" +:+ b) +:+ ":" +:+ join_colon (r :: rest)).
  change (join_colon (a :: b :: r :: rest))
    with (a +:+ ":" +:+ b +:+ ":" +:+ join_colon (r :: rest)).
  now rewrite append_assoc.
Qed.

(** ** The specialised caches *)

Lemma set_leaves_other_key (w w' : world) (k k' : string) (v : value) (ttl : Z)
    (c : CacheService) :
  k' ≠ k → (cache_get w' k' (cache_set w k v ttl c).2).1 = (cache_get w' k' c).1.
Proof.
  intros Hne. destruct (cache_set_frame w k k' v ttl c Hne).
  now apply cache_get_value_frame.
Qed.

Ltac other_namespace :=
  apply set_leaves_other_key;
  let H := fresh in intros H; vm_compute in H; discriminate H.

(** X12: the name spaces [ai_response:], [summary:], [session:] and
    [rate_limit:] do not interfere: storing under one of the specialised
    caches never changes what is read under another or under a rate-limit
    key, even with the same identifier. *)
Theorem specialised_caches_are_separate (w w' : world) (a b : string)
    (v : value) (ttl : Z) (c : CacheService) :
  (get_cached_ai_response w' a (cache_user_session w b v ttl c).2).1
  = (get_cached_ai_response w' a c).1 ∧
  (get_cached_ai_response w' a (cache_document_summary w b v ttl c).2).1
  = (get_cached_ai_response w' a c).1 ∧
  (get_cached_document_summary w' a (cache_user_session w b v ttl c).2).1
  = (get_cached_document_summary w' a c).1 ∧
  (get_cached_document_summary w' a (cache_ai_response w b v ttl c).2).1
  = (get_cached_document_summary w' a c).1 ∧
  (get_cached_user_session w' a (cache_ai_response w b v ttl c).2).1
  = (get_cached_user_session w' a c).1 ∧
  (get_cached_user_session w' a (cache_document_summary w b v ttl c).2).1
  = (get_cached_user_session w' a c).1 ∧
  (cache_get w' ("rate_limit:" +:+ a) (cache_ai_response w b v ttl c).2).1
  = (cache_get w' ("rate_limit:" +:+ a) c).1 ∧
  (cache_get w' ("rate_limit:" +:+ a) (cache_document_summary w b v ttl c).2).1
  = (cache_get w' ("rate_limit:" +:+ a) c).1 ∧
  (cache_get w' ("rate_limit:" +:+ a) (cache_user_session w b v ttl c).2).1
  = (cache_get w' ("rate_limit:" +:+ a) c).1.
Proof.
  unfold get_cached_ai_response, get_cached_document_summary,
    get_cached_user_session, cache_ai_response, cache_document_summary,
    cache_user_session.
  repeat split; other_namespace.
Qed.

(** ** Times returned by the window strategies *)

(** X13: whenever the fixed window returns, with a positive window, the
    reset time is a multiple of the window, lies after the current second
    and at most one window after it, and [retry_after] is absent on an
    allowed result and is the number of seconds to the reset time on a
    denied one. *)
Theorem fixed_window_times (w : world) (cache_key : string) (rl : RateLimit)
    (c c' : CacheService) (r : RateLimitResult) :
  0 < window rl →
  _check_fixed_window w cache_key rl c = Ok (r, c') →
  reset_time r `mod` window rl = 0 ∧
  py_int (now w) < reset_time r <= py_int (now w) + window rl ∧
  retry_after r
  = if allowed r then None else Some (reset_time r - py_int (now w)).
Proof.
  intros Hw. unfold _check_fixed_window.
  destruct (window rl =? 0) eqn:Hz; [lia|].
  destruct (cache_get _ _ _) as [got c1].
  destruct (count_or_zero got) as [n|e]; simpl; [|discriminate].
  pose proof (Z.div_mod (py_int (now w)) (window rl) ltac:(lia)) as Hdm.
  pose proof (Z.mod_pos_bound (py_int (now w)) (window rl) Hw) as Hmb.
  assert (Hmod : (py_int (now w) `div` window rl * window rl + window rl)
                   `mod` window rl = 0).
  { replace (py_int (now w) `div` window rl * window rl + window rl)
      with ((py_int (now w) `div` window rl + 1) * window rl) by ring.
    apply Z.mod_mul. lia. }
  destruct (n >=? requests rl).
  - intros H. inversion H; subst; simpl. repeat split; try assumption; lia.
  - destruct (increment_rate_limit _ _ _ _) as [[n' c2]|e]; simpl; [|discriminate].
    intros H. inversion H; subst; simpl. repeat split; try assumption; lia.
Qed.

Lemma fixed_window_times_witness :
  reset_time {| allowed := false; remaining := 0; reset_time := 3600;
                retry_after := Some 2600 |} `mod` window (limit 100 3600) = 0.
Proof.
  refine (proj1 (fixed_window_times (at_time 1000) "rate_limit:upload:user:alice"
                   (limit 100 3600) upload_counter_at_100 upload_counter_at_100
                   _ _ _)).
  - simpl; lia.
  - reflexivity.
Defined.

(** X14: when the sliding window denies it writes nothing (the cache is the
    one after the read), and [retry_after] is the number of seconds until
    the oldest kept request leaves the window, which is at least 1: the
    [max(1, ...)] of the code never applies. *)
Theorem sliding_window_denial_retry (w : world) (cache_key : string)
    (rl : RateLimit) (c c' : CacheService) (r : RateLimitResult) :
  _check_sliding_window w cache_key rl c = Ok (r, c') →
  allowed r = false →
  c' = (cache_get w (cache_key +:+ ":timestamps") c).2 ∧
  ∃ wait, retry_after r = Some wait ∧ 1 <= wait ∧
          wait = reset_time r - py_int (now w).
Proof.
  unfold _check_sliding_window.
  destruct (cache_get _ _ _) as [got c1].
  destruct (timestamps_or_empty got) as [ts|e]; simpl; [|discriminate].
  destruct (_ >=? requests rl).
  - destruct (py_min _) as [m|e] eqn:Hmin; simpl; [|discriminate].
    intros H _. inversion H; subst; simpl. split; [reflexivity|].
    apply py_min_in in Hmin. apply filter_In in Hmin as [_ Hm].
    apply Z.ltb_lt in Hm. eexists. split; [reflexivity|]. lia.
  - destruct (cache_set _ _ _ _ _) as [ok c2].
    intros H Hd. inversion H; subst. discriminate Hd.
Qed.

Lemma sliding_window_denial_retry_witness :
  ∃ wait, retry_after {| allowed := false; remaining := 0; reset_time := 1060;
                         retry_after := Some 60 |} = Some wait ∧ 1 <= wait ∧
          wait = 1060 - py_int (now (at_time 1000)).
Proof.
  refine (proj2 (sliding_window_denial_retry (at_time 1000) "k"
                   (three_per_minute SLIDING_WINDOW) cache_with_full_window
                   cache_with_full_window _ _ _)).
  - reflexivity.
  - reflexivity.
Defined.

(** X15: when the sliding window allows and the write succeeds (no line is
    logged), the list stored for the key is the kept timestamps followed by
    the current second, it is no longer than the limit, and every kept
    timestamp is younger than one window. *)
Theorem sliding_window_stores_at_most_limit (w : world) (cache_key : string)
    (rl : RateLimit) (c c' : CacheService) (r : RateLimitResult) :
  _check_sliding_window w cache_key rl c = Ok (r, c') →
  allowed r = true → log c' = log c →
  ∃ kept, data c' !! (cache_key +:+ ":timestamps")
          = Some (Entry (VList (kept ++ [py_int (now w)]))
                    (after (now w) (window rl))) ∧
          Z.of_nat (length (kept ++ [py_int (now w)])) <= requests rl ∧
          ∀ ts, In ts kept → py_int (now w) - window rl < ts.
Proof.
  unfold _check_sliding_window.
  destruct (cache_get _ _ _) as [got c1] eqn:Hget. apply cache_get_log in Hget.
  destruct (timestamps_or_empty got) as [ts|e]; simpl; [|discriminate].
  destruct (_ >=? requests rl) eqn:Hge.
  - destruct (py_min _) as [m|e]; simpl; [|discriminate].
    intros H Ha. inversion H; subst. discriminate Ha.
  - destruct (cache_set _ _ _ _ _) as [ok c2] eqn:Hset.
    intros H _ Hlog. inversion H; subst. clear H.
    rewrite Z.geb_leb in Hge. apply Z.leb_gt in Hge.
    apply cache_set_stored in Hset as [[Hl Hd]|Hl]; [|rewrite Hlog in Hl; lia].
    eexists. split; [exact Hd|]. split.
    + rewrite length_app. simpl. lia.
    + intros x Hx. apply filter_In in Hx as [_ Hx]. now apply Z.ltb_lt in Hx.
Qed.

Lemma sliding_window_stores_at_most_limit_witness :
  ∃ kept, data (cache_set (at_time 1000) "k:timestamps" (VList [1000]) 60
                  (empty_cache InMemoryCache)).2 !! ("k" +:+ ":timestamps")
          = Some (Entry (VList (kept ++ [py_int (now (at_time 1000))]))
                    (after (now (at_time 1000)) 60)) ∧
          Z.of_nat (length (kept ++ [py_int (now (at_time 1000))])) <= 3 ∧
          ∀ ts, In ts kept → py_int (now (at_time 1000)) - 60 < ts.
Proof.
  refine (sliding_window_stores_at_most_limit (at_time 1000) "k"
            (three_per_minute SLIDING_WINDOW) (empty_cache InMemoryCache)
            (cache_set (at_time 1000) "k:timestamps" (VList [1000]) 60
               (empty_cache InMemoryCache)).2
            {| allowed := true; remaining := 2; reset_time := 1060;
               retry_after := None |} _ _ _).
  - reflexivity.
  - reflexivity.
  - reflexivity.
Defined.

(** ** What the limiter leaves in the cache *)

Lemma prefix_append (p s : string) : String.prefix p (p +:+ s) = true.
Proof.
  induction p as [|ch p IH]; [destruct s; reflexivity|].
  change (String ch p +:+ s) with (String ch (p +:+ s)). simpl.
  destruct (Ascii.ascii_dec ch ch); [exact IH | congruence].
Qed.

Lemma append_inj_l (p a b : string) : p +:+ a = p +:+ b → a = b.
Proof.
  induction p as [|ch p IH]; intros H; [exact H|].
  change (String ch (p +:+ a) = String ch (p +:+ b)) in H.
  inversion H. auto.
Qed.

Lemma prefix_cons (a b : Ascii.ascii) (p s : string) :
  String.prefix (String a p) (String b s)
  = if Ascii.ascii_dec a b then String.prefix p s else false.
Proof. reflexivity. Qed.

Lemma class_prefix_step (a : Ascii.ascii) (p rest : string) :
  a ≠ ":"%char →
  (∀ lt, String.prefix p (lt +:+ ":" +:+ rest) = true →
         String.prefix p (lt +:+ ":") = true) →
  ∀ lt, String.prefix (String a p) (lt +:+ ":" +:+ rest) = true →
        String.prefix (String a p) (lt +:+ ":") = true.
Proof.
  intros Ha IH [|ch lt] H.
  - change ("" +:+ ":" +:+ rest) with (String ":" rest) in H.
    rewrite prefix_cons in H.
    destruct (Ascii.ascii_dec a ":"); [contradiction | discriminate H].
  - change (String ch lt +:+ ":" +:+ rest)
      with (String ch (lt +:+ ":" +:+ rest)) in H.
    change (String ch lt +:+ ":") with (String ch (lt +:+ ":")).
    rewrite prefix_cons in H |- *.
    destruct (Ascii.ascii_dec a ch); [auto | discriminate H].
Qed.

Lemma class_prefix (lt rest : string) :
  String.prefix "rate_limit:" (lt +:+ ":" +:+ rest) = true →
  String.prefix "rate_limit:" (lt +:+ ":") = true.
Proof.
  revert lt.
  do 10 (apply class_prefix_step; [discriminate|]).
  intros [|ch lt] H; [reflexivity|].
  change (String ch lt +:+ ":" +:+ rest)
    with (String ch (lt +:+ ":" +:+ rest)) in H.
  change (String ch lt +:+ ":") with (String ch (lt +:+ ":")).
  rewrite prefix_cons in H |- *.
  destruct (Ascii.ascii_dec ":" ch); [|discriminate H].
  destruct (lt +:+ ":"); reflexivity.
Qed.

Lemma class_name_step (a : Ascii.ascii) (q : string) :
  a ≠ ":"%char →
  (∀ lt, String.prefix (q +:+ ":") (lt +:+ ":") = true →
         lt = q ∨ String.prefix (q +:+ ":") lt = true) →
  ∀ lt, String.prefix (String a q +:+ ":") (lt +:+ ":") = true →
        lt = String a q ∨ String.prefix (String a q +:+ ":") lt = true.
Proof.
  intros Ha IH [|ch lt] H.
  - change (String.prefix (String a (q +:+ ":")) (String ":" "") = true) in H.
    rewrite prefix_cons in H.
    destruct (Ascii.ascii_dec a ":"); [contradiction | discriminate H].
  - change (String.prefix (String a (q +:+ ":")) (String ch (lt +:+ ":")) = true) in H.
    change (String a q +:+ ":") with (String a (q +:+ ":")).
    rewrite prefix_cons in H |- *.
    destruct (Ascii.ascii_dec a ch) as [<-|]; [|discriminate H].
    destruct (IH lt H) as [->|Hp]; [now left | now right].
Qed.

(** A class that is not named [rate_limit] and whose name does not start
    with [rate_limit:] is an ordinary one. *)
Lemma ordinary_class_intro (limit_type : string) :
  limit_type ≠ "rate_limit" →
  String.prefix "rate_limit:" limit_type = false →
  ordinary_class limit_type.
Proof.
  intros Hne Hp. unfold ordinary_class.
  destruct (String.prefix "rate_limit:" (limit_type +:+ ":")) eqn:E; [|reflexivity].
  exfalso. revert E. change "rate_limit:" with ("rate_limit" +:+ ":").
  intros E.
  assert (H : limit_type = "rate_limit"
              ∨ String.prefix ("rate_limit" +:+ ":") limit_type = true).
  { revert limit_type Hne Hp E. intros lt _ _. revert lt.
    do 10 (apply class_name_step; [discriminate|]).
    intros [|ch lt] H; [now left|]. right.
    change (String.prefix (String ":" "") (String ch (lt +:+ ":")) = true) in H.
    change (String.prefix (String ":" "") (String ch lt) = true).
    rewrite prefix_cons in H |- *.
    destruct (Ascii.ascii_dec ":" ch); [|discriminate H].
    destruct lt; reflexivity. }
  destruct H as [H|H]; [contradiction|].
  change ("rate_limit" +:+ ":") with "rate_limit:" in H. congruence.
Qed.

Lemma prefix_append_both (p q s : string) :
  String.prefix (p +:+ q) (p +:+ s) = String.prefix q s.
Proof.
  induction p as [|ch p IH]; [reflexivity|].
  change (String.prefix (String ch (p +:+ q)) (String ch (p +:+ s))
          = String.prefix q s).
  rewrite prefix_cons. destruct (Ascii.ascii_dec ch ch); [exact IH | congruence].
Qed.

(** The key the fixed window reads for an ordinary class is in the
    [rate_limit:] name space but not in [rate_limit:rate_limit:]. *)
Lemma window_key_single_prefix (limit_type rest : string) :
  ordinary_class limit_type →
  String.prefix "rate_limit:rate_limit:"
    ("rate_limit:" +:+ limit_type +:+ ":" +:+ rest) = false.
Proof.
  intros Ho.
  change "rate_limit:rate_limit:" with ("rate_limit:" +:+ "rate_limit:").
  rewrite prefix_append_both.
  destruct (String.prefix "rate_limit:" (limit_type +:+ ":" +:+ rest)) eqn:E;
    [|reflexivity].
  apply class_prefix in E. unfold ordinary_class in Ho. congruence.
Qed.

Lemma counters_insert_counter (d : gmap string entry) (k : string) (m : Z) (x : Q) :
  limiter_keys_are_counters d →
  String.prefix "rate_limit:rate_limit:" k = true →
  limiter_keys_are_counters (<[k := Entry (VInt m) x]> d).
Proof.
  intros Hd Hk j e Hj Hp. destruct (decide (j = k)) as [->|Hne].
  - rewrite lookup_insert_eq in Hj. inversion Hj; subst. simpl. eauto.
  - rewrite lookup_insert_ne in Hj by congruence. eauto.
Qed.

Lemma counters_insert_other (d : gmap string entry) (k : string) (e : entry) :
  limiter_keys_are_counters d →
  String.prefix "rate_limit:" k = false →
  limiter_keys_are_counters (<[k := e]> d).
Proof.
  intros Hd Hk j e' Hj Hp. destruct (decide (j = k)) as [->|Hne].
  - congruence.
  - rewrite lookup_insert_ne in Hj by congruence. eauto.
Qed.

Lemma counters_delete (d : gmap string entry) (k : string) :
  limiter_keys_are_counters d → limiter_keys_are_counters (delete k d).
Proof.
  intros Hd j e Hj Hp. apply lookup_delete_Some in Hj as [_ Hj]. eauto.
Qed.

Lemma counters_empty : limiter_keys_are_counters ∅.
Proof. intros k e H. rewrite lookup_empty in H. discriminate H. Qed.

Lemma cache_get_data (w : world) (k : string) (c : CacheService) :
  (data (cache_get w k c).2 = data c ∨
   data (cache_get w k c).2 = delete k (data c)) ∧
  current_cache (cache_get w k c).2 = current_cache c.
Proof.
  unfold cache_get, RedisCache_get, InMemoryCache_get.
  destruct (current_cache c) eqn:Hb.
  - destruct (get_fails w); simpl; auto.
  - destruct (data c !! k) as [e|]; [destruct (live (now w) e)|]; simpl; auto.
Qed.

Lemma cache_get_keeps_counters (w : world) (k : string) (c : CacheService) :
  limiter_keys_are_counters (data c) →
  limiter_keys_are_counters (data (cache_get w k c).2).
Proof.
  intros Hd. destruct (cache_get_data w k c) as [[->| ->] _];
    [assumption | now apply counters_delete].
Qed.

Lemma cache_get_single_prefix (w : world) (k : string) (c : CacheService) :
  limiter_keys_are_counters (data c) →
  String.prefix "rate_limit:" k = true →
  String.prefix "rate_limit:rate_limit:" k = false →
  (cache_get w k c).1 = None.
Proof.
  intros Hd H1 H2.
  assert (Hk : data c !! k = None).
  { destruct (data c !! k) as [e|] eqn:E; [|reflexivity].
    destruct (Hd k e E H1) as [H _]. congruence. }
  destruct (cache_get_absent w k c Hk) as (c1 & -> & _). reflexivity.
Qed.

Lemma increment_keeps_counters (w : world) (wk : string) (win : Z)
    (c : CacheService) :
  limiter_keys_are_counters (data c) →
  String.prefix "rate_limit:" wk = true →
  ∃ n c', increment_rate_limit w wk win c = Ok (n, c') ∧
          limiter_keys_are_counters (data c') ∧
          current_cache c' = current_cache c.
Proof.
  intros Hd Hp.
  assert (H1 : String.prefix "rate_limit:" ("rate_limit:" +:+ wk) = true)
    by apply prefix_append.
  assert (H2 : String.prefix "rate_limit:rate_limit:" ("rate_limit:" +:+ wk) = true).
  { change "rate_limit:rate_limit:" with ("rate_limit:" +:+ "rate_limit:").
    now rewrite prefix_append_both. }
  unfold increment_rate_limit. destruct c as [b d l]; simpl in *.
  destruct b.
  - unfold RedisCache_increment, redis_lookup; simpl.
    destruct (write_fails w).
    { eexists _, _. split; [reflexivity|]. split; [assumption | reflexivity]. }
    destruct (d !! ("rate_limit:" +:+ wk)) as [e|] eqn:He.
    + destruct (Hd _ e He H1) as [_ [n Hn]].
      destruct (live (now w) e); [rewrite Hn|];
        (eexists _, _; split; [reflexivity|]; split; [|reflexivity]; simpl;
         now apply counters_insert_counter).
    + eexists _, _. split; [reflexivity|]. split; [|reflexivity]. simpl.
      now apply counters_insert_counter.
  - unfold cache_get, cache_set, InMemoryCache_get, InMemoryCache_set; simpl.
    destruct (d !! ("rate_limit:" +:+ wk)) as [e|] eqn:He.
    + destruct (Hd _ e He H1) as [_ [n Hn]].
      destruct (live (now w) e); [rewrite Hn|]; simpl;
        (eexists _, _; split; [reflexivity|]; split; [|reflexivity]; simpl;
         apply counters_insert_counter; [|assumption];
         try apply counters_delete; assumption).
    + simpl. eexists _, _. split; [reflexivity|]. split; [|reflexivity]. simpl.
      now apply counters_insert_counter.
Qed.

(** The configurations of the deployed limiter. *)
Lemma deployed_limits_fixed_window (limit_type : string) (is_premium : bool) :
  ∃ n win, rate_limit_for rate_limiter limit_type is_premium = Ok (limit n win) ∧
           0 < n ∧ 0 < win ∧ win <= 3600.
Proof.
  unfold rate_limit_for.
  assert (Hg : default_limits rate_limiter !! "global" = Some (limit 1000 3600))
    by (vm_compute; reflexivity).
  rewrite Hg.
  destruct ((if is_premium then premium_limits rate_limiter
             else default_limits rate_limiter) !! limit_type) as [found|] eqn:Hl;
    simpl.
  2:{ exists 1000, 3600. split; [reflexivity | lia]. }
  destruct is_premium; cbv [rate_limiter default_limits premium_limits] in Hl;
    apply elem_of_list_to_map_2 in Hl;
    repeat (apply elem_of_cons in Hl as [Hl|Hl];
            [inversion Hl; subst; eexists _, _; split; [reflexivity | lia]|]);
    now apply elem_of_nil in Hl.
Qed.

Lemma fixed_window_on_counters (w : world) (limit_type rest : string)
    (rl : RateLimit) (c : CacheService) :
  0 < requests rl → window rl ≠ 0 →
  ordinary_class limit_type →
  limiter_keys_are_counters (data c) →
  ∃ r c', _check_fixed_window w ("rate_limit:" +:+ limit_type +:+ ":" +:+ rest)
            rl c = Ok (r, c') ∧
          allowed r = true ∧
          limiter_keys_are_counters (data c') ∧
          current_cache c' = current_cache c.
Proof.
  intros Hr Hw Ho Hd. unfold _check_fixed_window.
  destruct (window rl =? 0) eqn:Hz; [lia|].
  set (ws := pretty _).
  assert (Hk : ("rate_limit:" +:+ limit_type +:+ ":" +:+ rest) +:+ ":" +:+ ws
               = "rate_limit:" +:+ limit_type +:+ ":" +:+ (rest +:+ ":" +:+ ws)).
  { rewrite !append_assoc. reflexivity. }
  rewrite Hk. set (wk := "rate_limit:" +:+ _).
  assert (H1 : String.prefix "rate_limit:" wk = true) by apply prefix_append.
  assert (H2 : String.prefix "rate_limit:rate_limit:" wk = false)
    by now apply window_key_single_prefix.
  pose proof (cache_get_single_prefix w wk c Hd H1 H2) as Hnone.
  pose proof (cache_get_keeps_counters w wk c Hd) as Hd1.
  destruct (cache_get_data w wk c) as [_ Hb1].
  destruct (cache_get w wk c) as [got c1]. simpl in *. subst got. simpl.
  destruct (0 >=? requests rl) eqn:Hge; [lia|].
  destruct (increment_keeps_counters w wk (window rl) c1 Hd1 H1)
    as (n & c' & Hinc & Hd' & Hb').
  rewrite Hinc. simpl. eexists _, _. split; [reflexivity|].
  split; [reflexivity|]. split; [exact Hd'|]. congruence.
Qed.

Lemma deployed_check_on_counters (w : world) (identifier limit_type : string)
    (is_premium : bool) (c : CacheService) :
  ordinary_class limit_type →
  limiter_keys_are_counters (data c) →
  ∃ r c', check_rate_limit rate_limiter w identifier limit_type is_premium c
          = Ok (r, c') ∧
          allowed r = true ∧
          limiter_keys_are_counters (data c') ∧
          current_cache c' = current_cache c.
Proof.
  intros Ho Hd. unfold check_rate_limit.
  destruct (deployed_limits_fixed_window limit_type is_premium)
    as (n & win & -> & Hn & Hwin & _).
  simpl. unfold check_with. simpl.
  apply fixed_window_on_counters; simpl; try assumption; lia.
Qed.

(** X16 (the fixed window of the deployed limiter never denies): in a cache
    whose keys of the [rate_limit:] name space are all counters written by
    [increment_rate_limit], every run of [check_rate_limit] for a class
    that is not named [rate_limit] and whose name does not start with
    [rate_limit:] is allowed throughout, for both tiers, at any instants,
    on either backend and whether or not cache calls fail; and the cache
    stays of that kind. *)
Theorem deployed_limiter_never_denies (ws : list world)
    (identifier limit_type : string) (is_premium : bool) (c : CacheService) :
  limit_type ≠ "rate_limit" →
  String.prefix "rate_limit:" limit_type = false →
  limiter_keys_are_counters (data c) →
  ∃ rs c', run_checks
             (fun w => check_rate_limit rate_limiter w identifier limit_type
                         is_premium) ws c = Ok (rs, c') ∧
           length rs = length ws ∧
           (∀ r, In r rs → allowed r = true) ∧
           limiter_keys_are_counters (data c').
Proof.
  intros Hne Hp. pose proof (ordinary_class_intro limit_type Hne Hp) as Ho.
  revert c. induction ws as [|w ws IH]; intros c Hd.
  - exists [], c. split; [reflexivity|]. split; [reflexivity|].
    split; [intros r []|assumption].
  - destruct (deployed_check_on_counters w identifier limit_type is_premium c Ho Hd)
      as (r & c1 & Hc & Ha & Hd1 & _).
    destruct (IH c1 Hd1) as (rs & c' & Hrun & Hlen & Hall & Hd').
    simpl. rewrite Hc. simpl. rewrite Hrun. simpl.
    exists (r :: rs), c'. split; [reflexivity|]. split; [simpl; congruence|].
    split; [|assumption]. intros r' [<-|Hin]; auto.
Qed.

Lemma deployed_limiter_never_denies_witness :
  ∃ rs c', run_checks
             (fun w => check_rate_limit rate_limiter w "user:alice" "auth" false)
             [at_time 1000; at_time 1001; at_time 2000] (empty_cache RedisCache)
           = Ok (rs, c') ∧
           length rs = 3%nat ∧
           (∀ r, In r rs → allowed r = true) ∧
           limiter_keys_are_counters (data c').
Proof.
  apply (deployed_limiter_never_denies [at_time 1000; at_time 1001; at_time 2000]
           "user:alice" "auth" false (empty_cache RedisCache)).
  - discriminate.
  - reflexivity.
  - apply counters_empty.
Defined.

(** ** The middleware, the dependency and the decorator *)

(** X17: in a cache whose keys of the [rate_limit:] name space are all
    counters written by [increment_rate_limit], the middleware never
    answers by itself: every request, on any path and of any scope type, is
    handed to the application, and the cache stays of that kind. *)
Theorem middleware_never_rejects (w : world) (scope : Scope) (c : CacheService) :
  limiter_keys_are_counters (data c) →
  ∃ c', RateLimitMiddleware_call w scope c = AppCalled c' ∧
        limiter_keys_are_counters (data c') ∧
        current_cache c' = current_cache c.
Proof.
  intros Hd. unfold RateLimitMiddleware_call.
  destruct (String.eqb (scope_type scope) "http"); [|eauto].
  destruct (existsb _ _); [eauto|].
  destruct (deployed_check_on_counters w
              (get_identifier_from_request (scope_request scope) None)
              "global" false c eq_refl Hd) as (r & c' & -> & Ha & Hd' & Hb).
  rewrite Ha. simpl. eauto.
Qed.

Lemma middleware_never_rejects_witness :
  ∃ c', RateLimitMiddleware_call (at_time 1000)
          {| scope_type := "http"; scope_path := "/api/documents";
             scope_request := anonymous_request |}
          (empty_cache InMemoryCache) = AppCalled c' ∧
        limiter_keys_are_counters (data c') ∧
        current_cache c' = InMemoryCache.
Proof.
  apply (middleware_never_rejects (at_time 1000)
           {| scope_type := "http"; scope_path := "/api/documents";
              scope_request := anonymous_request |}
           (empty_cache InMemoryCache)).
  apply counters_empty.
Defined.

(** X18: in a cache whose keys of the [rate_limit:] name space are all
    counters written by [increment_rate_limit], and for a class that is not
    named [rate_limit] and whose name does not start with [rate_limit:],
    [rate_limit_dependency] returns an allowed result and raises nothing,
    and the wrapper of the [rate_limit] decorator runs the decorated
    function on the cache the check left. *)
Theorem guarded_handler_always_runs {A : Type} (w : world)
    (request : Request) (limit_type : string) (user_id : option string)
    (is_premium : bool) (func : CacheService → outcome (A * CacheService))
    (c : CacheService) :
  limit_type ≠ "rate_limit" →
  String.prefix "rate_limit:" limit_type = false →
  limiter_keys_are_counters (data c) →
  ∃ r c',
    rate_limit_dependency rate_limiter w request limit_type user_id is_premium c
    = Ok (r, c') ∧
    allowed r = true ∧
    limiter_keys_are_counters (data c') ∧
    current_cache c' = current_cache c ∧
    rate_limit_wrapper limit_type is_premium w (Some request) user_id func c
    = func c'.
Proof.
  intros Hne Hp Hd. pose proof (ordinary_class_intro limit_type Hne Hp) as Ho.
  destruct (deployed_check_on_counters w
              (get_identifier_from_request request user_id)
              limit_type is_premium c Ho Hd) as (r & c' & Hc & Ha & Hd' & Hb).
  assert (Hdep : rate_limit_dependency rate_limiter w request limit_type user_id
                   is_premium c = Ok (r, c')).
  { unfold rate_limit_dependency. rewrite Hc. simpl. rewrite Ha. reflexivity. }
  exists r, c'. split; [exact Hdep|]. split; [exact Ha|]. split; [exact Hd'|].
  split; [exact Hb|].
  unfold rate_limit_wrapper. rewrite Hdep. reflexivity.
Qed.

Lemma guarded_handler_always_runs_witness :
  ∃ r c',
    rate_limit_dependency rate_limiter (at_time 1000) anonymous_request "upload"
      (Some "alice") false (empty_cache InMemoryCache) = Ok (r, c') ∧
    allowed r = true ∧
    limiter_keys_are_counters (data c') ∧
    current_cache c' = InMemoryCache ∧
    rate_limit_wrapper "upload" false (at_time 1000) (Some anonymous_request)
      (Some "alice") (fun c0 => Ok (tt, c0)) (empty_cache InMemoryCache)
    = Ok (tt, c').
Proof.
  apply (guarded_handler_always_runs (at_time 1000) anonymous_request "upload"
           (Some "alice") false (fun c0 => Ok (tt, c0))
           (empty_cache InMemoryCache)).
  - discriminate.
  - reflexivity.
  - apply counters_empty.
Defined.

(** ** Other writers of the cache *)

Lemma cache_set_data (w : world) (k : string) (v : value) (ttl : Z)
    (c : CacheService) :
  data (cache_set w k v ttl c).2 = data c ∨
  data (cache_set w k v ttl c).2 = <[k := Entry v (after (now w) ttl)]> (data c).
Proof.
  unfold cache_set, RedisCache_set, InMemoryCache_set.
  destruct (current_cache c); [destruct (_ || _)|]; simpl; auto.
Qed.

Lemma cache_delete_data (w : world) (k : string) (c : CacheService) :
  data (cache_delete w k c).2 = data c ∨
  data (cache_delete w k c).2 = delete k (data c).
Proof.
  unfold cache_delete, RedisCache_delete, InMemoryCache_delete.
  destruct (current_cache c).
  - destruct (write_fails w); [|destruct (redis_lookup _ _ _)]; simpl; auto.
  - destruct (data c !! k); simpl; auto.
Qed.

Lemma cache_set_keeps_counters (w : world) (k : string) (v : value) (ttl : Z)
    (c : CacheService) :
  String.prefix "rate_limit:" k = false →
  limiter_keys_are_counters (data c) →
  limiter_keys_are_counters (data (cache_set w k v ttl c).2).
Proof.
  intros Hk Hd. destruct (cache_set_data w k v ttl c) as [-> | ->];
    [assumption | now apply counters_insert_other].
Qed.

Lemma cache_delete_keeps_counters (w : world) (k : string) (c : CacheService) :
  limiter_keys_are_counters (data c) →
  limiter_keys_are_counters (data (cache_delete w k c).2).
Proof.
  intros Hd. destruct (cache_delete_data w k c) as [-> | ->];
    [assumption | now apply counters_delete].
Qed.

Lemma fold_delete_keeps_counters (ks : list string) (d : gmap string entry) :
  limiter_keys_are_counters d →
  limiter_keys_are_counters (fold_left (fun m k => delete k m) ks d).
Proof.
  revert d. induction ks as [|k ks IH]; intros d Hd; [assumption|].
  simpl. apply IH. now apply counters_delete.
Qed.

(** X19: a cache whose keys of the [rate_limit:] name space are all
    counters written by [increment_rate_limit] stays of that kind under the
    other operations on it: a [set] under a key outside that name space,
    the three specialised caches, and [get], [exists], [delete],
    [reset_rate_limit], [clear] and the background sweep on any key. *)
Theorem other_writers_keep_counters (w : world) (k k' : string) (v : value)
    (ttl : Z) (identifier limit_type : string) (c : CacheService) :
  limiter_keys_are_counters (data c) →
  String.prefix "rate_limit:" k = false →
  limiter_keys_are_counters (data (cache_set w k v ttl c).2) ∧
  limiter_keys_are_counters (data (cache_ai_response w k' v ttl c).2) ∧
  limiter_keys_are_counters (data (cache_document_summary w k' v ttl c).2) ∧
  limiter_keys_are_counters (data (cache_user_session w k' v ttl c).2) ∧
  limiter_keys_are_counters (data (cache_get w k' c).2) ∧
  limiter_keys_are_counters (data (cache_exists w k' c).2) ∧
  limiter_keys_are_counters (data (cache_delete w k' c).2) ∧
  limiter_keys_are_counters (data (reset_rate_limit w identifier limit_type c).2) ∧
  limiter_keys_are_counters (data (cache_clear w c).2) ∧
  limiter_keys_are_counters (data (cleanup_expired_round (now w) c)).
Proof.
  intros Hd Hk. repeat match goal with |- _ ∧ _ => split end.
  - now apply cache_set_keeps_counters.
  - apply cache_set_keeps_counters; [|assumption].
    change ("ai_response:" +:+ k') with (String "a" ("i_response:" +:+ k')).
    rewrite prefix_cons. reflexivity.
  - apply cache_set_keeps_counters; [|assumption].
    change ("summary:" +:+ k') with (String "s" ("ummary:" +:+ k')).
    rewrite prefix_cons. reflexivity.
  - apply cache_set_keeps_counters; [|assumption].
    change ("session:" +:+ k') with (String "s" ("ession:" +:+ k')).
    rewrite prefix_cons. reflexivity.
  - now apply cache_get_keeps_counters.
  - unfold cache_exists, RedisCache_exists, InMemoryCache_exists.
    pose proof (cache_get_keeps_counters w k' c Hd) as Hg.
    unfold cache_get in Hg. destruct (current_cache c).
    + destruct (get_fails w); assumption.
    + destruct (InMemoryCache_get _ _ _). exact Hg.
  - now apply cache_delete_keeps_counters.
  - now apply cache_delete_keeps_counters.
  - unfold cache_clear, RedisCache_clear, InMemoryCache_clear.
    destruct (current_cache c); [destruct (write_fails w)|]; simpl;
      try assumption; apply counters_empty.
  - apply fold_delete_keeps_counters. assumption.
Qed.

Lemma other_writers_keep_counters_witness :
  limiter_keys_are_counters
    (data (cache_set (at_time 1000) "health_check" (VInt 1) 60
             {| current_cache := InMemoryCache;
                data := {[ "rate_limit:rate_limit:auth:user:alice:900"
                           := Entry (VInt 1) 1300 ]};
                log := [] |}).2).
Proof.
  refine (proj1 (other_writers_keep_counters (at_time 1000) "health_check" "q"
                   (VInt 1) 60 "user:alice" "auth"
                   {| current_cache := InMemoryCache;
                      data := {[ "rate_limit:rate_limit:auth:user:alice:900"
                                 := Entry (VInt 1) 1300 ]};
                      log := [] |} _ _)).
  - intros k e H _. simpl in H.
    apply lookup_singleton_Some in H as [<- <-].
    split; [reflexivity | eexists; reflexivity].
  - reflexivity.
Defined.

(** ** Rejections *)

Lemma fixed_window_denial (w : world) (cache_key : string) (rl : RateLimit)
    (c c' : CacheService) (r : RateLimitResult) :
  0 < window rl →
  _check_fixed_window w cache_key rl c = Ok (r, c') →
  allowed r = false →
  remaining r = 0 ∧
  ∃ n, retry_after r = Some n ∧ 1 <= n <= window rl ∧
       reset_time r = py_int (now w) + n.
Proof.
  intros Hw. unfold _check_fixed_window.
  destruct (window rl =? 0) eqn:Hz; [lia|].
  destruct (cache_get _ _ _) as [got c1].
  destruct (count_or_zero got) as [n|e]; simpl; [|discriminate].
  pose proof (Z.div_mod (py_int (now w)) (window rl) ltac:(lia)) as Hdm.
  pose proof (Z.mod_pos_bound (py_int (now w)) (window rl) Hw) as Hmb.
  destruct (n >=? requests rl).
  - intros H _. inversion H; subst; simpl. split; [reflexivity|].
    eexists. split; [reflexivity|]. lia.
  - destruct (increment_rate_limit _ _ _ _) as [[n' c2]|e]; simpl; [|discriminate].
    intros H Ha. inversion H; subst. discriminate Ha.
Qed.

Lemma deployed_denial (w : world) (identifier limit_type : string)
    (is_premium : bool) (c c' : CacheService) (r : RateLimitResult) :
  check_rate_limit rate_limiter w identifier limit_type is_premium c = Ok (r, c') →
  allowed r = false →
  remaining r = 0 ∧
  ∃ n, retry_after r = Some n ∧ 1 <= n <= 3600 ∧
       reset_time r = py_int (now w) + n.
Proof.
  unfold check_rate_limit.
  destruct (deployed_limits_fixed_window limit_type is_premium)
    as (n & win & -> & Hn & Hwin & Hle).
  simpl. unfold check_with. simpl. intros Hc Ha.
  destruct (fixed_window_denial w _ (limit n win) c c' r Hwin Hc Ha)
    as (Hr & m & Hm & Hb & Ht).
  split; [assumption|]. exists m. simpl in Hb. repeat split; try assumption; lia.
Qed.

Lemma count_or_zero_raises (got : option value) (e : exn) :
  count_or_zero got = Raise e → e = TypeError.
Proof.
  destruct got as [[m|[|t ts]|b]|]; simpl; intros H; inversion H; reflexivity.
Qed.

Lemma increment_raises (w : world) (k : string) (win : Z) (c : CacheService)
    (e : exn) :
  increment_rate_limit w k win c = Raise e → e = TypeError.
Proof.
  unfold increment_rate_limit. destruct (current_cache c); [discriminate|].
  destruct (cache_get _ _ _) as [got c1].
  destruct got as [[m|[|t ts]|b]|]; simpl;
    try (intros H; inversion H; reflexivity);
    destruct (cache_set _ _ _ _ _); discriminate.
Qed.

Lemma fixed_window_raises (w : world) (cache_key : string) (rl : RateLimit)
    (c : CacheService) (e : exn) :
  window rl ≠ 0 →
  _check_fixed_window w cache_key rl c = Raise e → e = TypeError.
Proof.
  intros Hw. unfold _check_fixed_window.
  destruct (window rl =? 0) eqn:Hz; [lia|].
  destruct (cache_get _ _ _) as [got c1].
  destruct (count_or_zero got) as [n|e0] eqn:Hcount; simpl.
  - destruct (n >=? requests rl); [discriminate|].
    destruct (increment_rate_limit _ _ _ _) as [[n' c2]|e1] eqn:Hinc; simpl;
      [discriminate|].
    intros H; inversion H; subst. eapply increment_raises; eassumption.
  - intros H; inversion H; subst. eapply count_or_zero_raises; eassumption.
Qed.

Lemma deployed_raises_type_error (w : world) (identifier limit_type : string)
    (is_premium : bool) (c : CacheService) (e : exn) :
  check_rate_limit rate_limiter w identifier limit_type is_premium c = Raise e →
  e = TypeError.
Proof.
  unfold check_rate_limit.
  destruct (deployed_limits_fixed_window limit_type is_premium)
    as (n & win & -> & Hn & Hwin & Hle).
  simpl. unfold check_with. simpl. apply fixed_window_raises. simpl. lia.
Qed.

(** X20: whenever the middleware answers by itself, the status is 429, the
    body carries a [retry_after] between 1 and 3600, and the headers are
    exactly X-RateLimit-Limit 1000, X-RateLimit-Remaining 0,
    X-RateLimit-Reset at the current second plus [retry_after], and
    Retry-After with [retry_after]: the fallback ["60"] is never sent. *)
Theorem middleware_rejection (w : world) (scope : Scope) (c c' : CacheService)
    (status_code : Z) (content : RejectionContent)
    (headers : list (string * string)) :
  RateLimitMiddleware_call w scope c = Responded status_code content headers c' →
  status_code = 429 ∧
  ∃ n, 1 <= n <= 3600 ∧
       content = {| content_error := "Rate limit exceeded";
                    content_message := "Too many requests";
                    content_retry_after := Some n |} ∧
       headers = [ ("X-RateLimit-Limit", "1000");
                   ("X-RateLimit-Remaining", "0");
                   ("X-RateLimit-Reset", pretty (py_int (now w) + n));
                   ("Retry-After", pretty n) ].
Proof.
  unfold RateLimitMiddleware_call.
  destruct (String.eqb (scope_type scope) "http"); [|discriminate].
  destruct (existsb _ _); [discriminate|].
  destruct (check_rate_limit _ _ _ _ _ _) as [[r c1]|e] eqn:Hc; [|discriminate].
  destruct (allowed r) eqn:Ha; simpl; [discriminate|].
  destruct (deployed_denial _ _ _ _ _ _ _ Hc Ha) as (Hr & n & Hn & Hb & Ht).
  intros H. inversion H; subst. split; [reflexivity|]. exists n.
  split; [assumption|]. split; [now rewrite Hn|].
  unfold retry_after_or_60. rewrite Hn, Hr, Ht.
  destruct (n =? 0) eqn:E; [lia|]. reflexivity.
Qed.

Lemma middleware_rejection_witness :
  429 = 429 ∧
  ∃ n, 1 <= n <= 3600 ∧
       {| content_error := "Rate limit exceeded";
          content_message := "Too many requests";
          content_retry_after := Some 2600 |}
       = {| content_error := "Rate limit exceeded";
            content_message := "Too many requests";
            content_retry_after := Some n |} ∧
       [ ("X-RateLimit-Limit", "1000"); ("X-RateLimit-Remaining", "0");
         ("X-RateLimit-Reset", "3600"); ("Retry-After", "2600") ]
       = [ ("X-RateLimit-Limit", "1000");
           ("X-RateLimit-Remaining", "0");
           ("X-RateLimit-Reset", pretty (py_int (now (at_time 1000)) + n));
           ("Retry-After", pretty n) ].
Proof.
  refine (middleware_rejection (at_time 1000)
            {| scope_type := "http"; scope_path := "/api/documents";
               scope_request := anonymous_request |}
            {| current_cache := RedisCache;
               data := {[ "rate_limit:global:ip:10.0.0.1:0" := Entry (VInt 1000) 3600 ]};
               log := [] |}
            {| current_cache := RedisCache;
               data := {[ "rate_limit:global:ip:10.0.0.1:0" := Entry (VInt 1000) 3600 ]};
               log := [] |}
            429 _ _ _).
  reflexivity.
Defined.

(** X21 (every outcome of the dependency with the deployed limiter): it
    returns the allowed result of the check; or raises [TypeError] (a cached
    value of the wrong type); or, on a denial, raises [KeyError] of a class
    that the standard table does not list, or the 429 rejection whose
    detail and four headers carry the standard tier's limit, remaining 0,
    the reset time and a [retry_after] between 1 and 3600. *)
Theorem dependency_outcomes (w : world) (request : Request) (limit_type : string)
    (user_id : option string) (is_premium : bool) (c : CacheService) :
  match rate_limit_dependency rate_limiter w request limit_type user_id
          is_premium c with
  | Ok (r, c') =>
      allowed r = true ∧
      check_rate_limit rate_limiter w
        (get_identifier_from_request request user_id) limit_type is_premium c
      = Ok (r, c')
  | Raise TypeError => True
  | Raise (KeyError k) =>
      k = limit_type ∧ default_limits rate_limiter !! limit_type = None
  | Raise (HTTPException status_code detail headers) =>
      status_code = 429 ∧
      ∃ shown n,
        default_limits rate_limiter !! limit_type = Some shown ∧
        1 <= n <= 3600 ∧
        detail = {| error := "Rate limit exceeded";
                    message := "Too many requests for " +:+ limit_type;
                    detail_retry_after := Some n;
                    detail_reset_time := py_int (now w) + n |} ∧
        headers = [ ("X-RateLimit-Limit", pretty (requests shown));
                    ("X-RateLimit-Remaining", "0");
                    ("X-RateLimit-Reset", pretty (py_int (now w) + n));
                    ("Retry-After", pretty n) ]
  | Raise _ => False
  end.
Proof.
  unfold rate_limit_dependency.
  generalize (default_limits rate_limiter). intros tbl.
  destruct (check_rate_limit _ _ _ _ _ _) as [[r c1]|e] eqn:Hc; simpl.
  2:{ now rewrite (deployed_raises_type_error _ _ _ _ _ _ Hc). }
  destruct (allowed r) eqn:Ha; simpl; [auto|].
  destruct (deployed_denial _ _ _ _ _ _ _ Hc Ha) as (Hr & n & Hn & Hb & Ht).
  destruct (tbl !! limit_type) as [shown|] eqn:Hs;
    [|cbv beta iota; auto].
  cbv beta iota.
  split; [reflexivity|]. exists shown, n. split; [reflexivity|].
  split; [assumption|]. rewrite Hn, Ht, Hr. split; [reflexivity|].
  unfold retry_after_header. rewrite Hn.
  destruct (n =? 0) eqn:E; [lia|]. reflexivity.
Qed.

(** ** Polling a drained token bucket *)

Lemma tokens_to_add_short (rl : RateLimit) (elapsed : Q) :
  0 < requests rl → 0 < window rl →
  (0 <= elapsed)%Q →
  (elapsed * inject_Z (requests rl) * (1 + rounding_slack) < inject_Z (window rl))%Q →
  tokens_to_add rl elapsed = 0.
Proof.
  intros Hr Hw H0 H1.
  destruct (tokens_to_add_bounds rl elapsed Hr Hw H0) as (Hk0 & _ & Hk1).
  pose proof (inject_Z_pos _ Hw) as Hw'.
  assert (Hx : (elapsed * spec_rate rl * (1 + rounding_slack) < 1)%Q).
  { assert (E : (elapsed * spec_rate rl * (1 + rounding_slack)
                 == elapsed * inject_Z (requests rl) * (1 + rounding_slack)
                    / inject_Z (window rl))%Q)
      by (unfold spec_rate; field; lra).
    rewrite E. apply Qlt_shift_div_r; [assumption|]. now rewrite Qmult_1_l. }
  assert (Hlt : (inject_Z (tokens_to_add rl elapsed) < inject_Z 1)%Q)
    by (eapply Qle_lt_trans; [exact Hk1 | exact Hx]).
  rewrite <- Zlt_Qlt in Hlt. lia.
Qed.

(** X22 (starvation on the in-memory backend): a stored bucket without
    tokens that is polled each time sooner than one token takes to refill,
    by a margin of one part in [2 ** 51] (more than the rounding of the
    float product can make up), is denied at every poll for as long as its
    entry lasts, however much time passes in total, because each denial
    moves [last_refill] of the stored bucket to the time of the poll. *)
Theorem in_memory_bucket_starves (cache_key : string) (rl : RateLimit)
    (ws : list world) (c : CacheService) (b : bucket) (expiry : Q) :
  0 < requests rl → 0 < window rl →
  current_cache c = InMemoryCache →
  data c !! (cache_key +:+ ":bucket") = Some (Entry (VBucket b) expiry) →
  tokens b <= 0 →
  polls_faster_than_refill rl (last_refill b) ws →
  (∀ w, In w ws → (now w < expiry)%Q) →
  ∃ rs c', run_checks (fun w => _check_token_bucket w cache_key rl) ws c
           = Ok (rs, c') ∧
           length rs = length ws ∧
           ∀ r, In r rs → allowed r = false.
Proof.
  intros Hr Hw. revert c b.
  induction ws as [|w ws IH]; intros c b Hb Hk Ht Hp Hx.
  - exists [], c. split; [reflexivity|]. split; [reflexivity|]. intros r [].
  - destruct Hp as (H0 & H1 & Hp).
    assert (Hadd : tokens_to_add rl (now w - last_refill b) = 0).
    { apply tokens_to_add_short; try assumption. lra. }
    assert (Href : tokens (refill rl (now w) b) <= 0 ∧
                   last_refill (refill rl (now w) b) = now w).
    { unfold refill. simpl. rewrite Hadd. split; [lia | reflexivity]. }
    destruct Href as [Htk Hlr].
    assert (Hl : live (now w) (Entry (VBucket b) expiry) = true).
    { unfold live. simpl. apply Qlt_bool_iff. apply Hx. now left. }
    assert (Hget : cache_get w (cache_key +:+ ":bucket") c = (Some (VBucket b), c)).
    { unfold cache_get, InMemoryCache_get. now rewrite Hb, Hk, Hl. }
    assert (Hstep : ∃ r c1, _check_token_bucket w cache_key rl c = Ok (r, c1) ∧
                      allowed r = false ∧ current_cache c1 = InMemoryCache ∧
                      data c1 !! (cache_key +:+ ":bucket")
                      = Some (Entry (VBucket (refill rl (now w) b)) expiry)).
    { unfold _check_token_bucket. rewrite Hget. simpl.
      destruct (window rl =? 0) eqn:Hz; [lia|].
      destruct (_ <? 1) eqn:Hlt; [|apply Z.ltb_ge in Hlt; lia].
      destruct (requests rl =? 0) eqn:Hz'; [lia|].
      eexists _, _. split; [reflexivity|]. split; [reflexivity|].
      unfold assign_in_place. rewrite Hb. simpl. split; [assumption|].
      rewrite lookup_alter_eq, Hk. reflexivity. }
    destruct Hstep as (r & c1 & Hc & Ha & Hb1 & Hk1).
    destruct (IH c1 (refill rl (now w) b) Hb1 Hk1 Htk) as (rs & c' & Hrun & Hlen & Hall).
    { now rewrite Hlr. }
    { intros w' Hin. apply Hx. now right. }
    simpl. rewrite Hc. simpl. rewrite Hrun. simpl.
    exists (r :: rs), c'. split; [reflexivity|]. split; [simpl; congruence|].
    intros r' [<-|Hin]; auto.
Qed.

Lemma in_memory_bucket_starves_witness :
  ∃ rs c', run_checks (fun w => _check_token_bucket w "k" (bucket_of 1 60))
             [at_time 130; at_time 160; at_time 190]
             {| current_cache := InMemoryCache;
                data := {[ "k:bucket" := Entry (VBucket drained_at_100) 220 ]};
                log := [] |}
           = Ok (rs, c') ∧
           length rs = 3%nat ∧
           ∀ r, In r rs → allowed r = false.
Proof.
  refine (in_memory_bucket_starves "k" (bucket_of 1 60)
            [at_time 130; at_time 160; at_time 190]
            {| current_cache := InMemoryCache;
               data := {[ "k:bucket" := Entry (VBucket drained_at_100) 220 ]};
               log := [] |} drained_at_100 220 _ _ _ _ _ _ _).
  - simpl; lia.
  - simpl; lia.
  - reflexivity.
  - reflexivity.
  - simpl; lia.
  - simpl. repeat split; vm_compute; congruence.
  - intros w Hin. simpl in Hin.
    destruct Hin as [<-|[<-|[<-|[]]]]; vm_compute; reflexivity.
Defined.

(** The same polls against Redis, which hands out a copy of the bucket: the
    denials leave the stored bucket as it was, and the poll at second 160 is
    allowed. *)
Example redis_bucket_refills_between_polls :
  result_of (run_checks (fun w => _check_token_bucket w "k" (bucket_of 1 60))
               [at_time 130; at_time 160; at_time 190] cache_with_drained_bucket)
  = Ok [ {| allowed := false; remaining := 0; reset_time := 190;
            retry_after := Some 60 |};
         {| allowed := true; remaining := 0; reset_time := 220;
            retry_after := None |};
         {| allowed := false; remaining := 0; reset_time := 250;
            retry_after := Some 60 |} ].
Proof. vm_compute. reflexivity. Qed.

(** ** The count the fixed window reports *)

Lemma increment_healthy (w : world) (identifier : string) (win n : Z)
    (c : CacheService) :
  healthy w c → 0 < win →
  redis_lookup (now w) ("rate_limit:" +:+ identifier) c = Some (VInt n) ∨
  (redis_lookup (now w) ("rate_limit:" +:+ identifier) c = None ∧ n = 0) →
  ∃ c', increment_rate_limit w identifier win c = Ok (n + 1, c') ∧
        current_cache c' = current_cache c ∧
        data c' !! ("rate_limit:" +:+ identifier)
        = Some (Entry (VInt (n + 1)) (after (now w) win)) ∧
        ∀ k, k ≠ "rate_limit:" +:+ identifier → data c' !! k = data c !! k.
Proof.
  intros Hh Hwin Hold.
  set (key := "rate_limit:" +:+ identifier) in *.
  unfold increment_rate_limit. fold key.
  destruct (current_cache c) eqn:Hb.
  - destruct Hh as [Hm|[Hg Hw]]; [congruence|].
    unfold RedisCache_increment. rewrite Hw.
    destruct Hold as [Ho|[Ho ->]]; rewrite Ho; eexists;
      (split; [reflexivity|]); simpl;
      (split; [assumption|]); (split; [apply lookup_insert_eq|]);
      intros k Hk; now rewrite lookup_insert_ne by congruence.
  - unfold cache_get, cache_set. rewrite Hb.
    unfold InMemoryCache_get. unfold redis_lookup in Hold.
    destruct (data c !! key) as [e|] eqn:He.
    + destruct (live (now w) e) eqn:Hl.
      * destruct Hold as [Ho|[Ho _]]; [|discriminate Ho].
        inversion Ho as [Hv]. simpl. rewrite Hv. simpl. rewrite Hb.
        unfold InMemoryCache_set.
        eexists. split; [reflexivity|]. simpl. split; [assumption|].
        split; [apply lookup_insert_eq|].
        intros k Hk. now rewrite lookup_insert_ne by congruence.
      * destruct Hold as [Ho|[_ ->]]; [discriminate Ho|].
        simpl. rewrite Hb. unfold InMemoryCache_set.
        eexists. split; [reflexivity|]. simpl. split; [assumption|].
        split; [apply lookup_insert_eq|].
        intros k Hk. rewrite lookup_insert_ne by congruence.
        now rewrite lookup_delete_ne by congruence.
    + destruct Hold as [Ho|[_ ->]]; [discriminate Ho|].
      simpl. rewrite Hb. unfold InMemoryCache_set.
      eexists. split; [reflexivity|]. simpl. split; [assumption|].
      split; [apply lookup_insert_eq|].
      intros k Hk. now rewrite lookup_insert_ne by congruence.
Qed.

Lemma same_window_live (t t' : Q) (win start : Z) :
  0 < win → (0 <= t)%Q →
  py_int t `div` win * win = start →
  py_int t' `div` win * win = start →
  Qlt_bool t' (after t win) = true.
Proof.
  intros Hw Ht Hs Hs'. apply Qlt_bool_iff. unfold after.
  pose proof (Z.div_mod (py_int t) win ltac:(lia)) as Hdm.
  pose proof (Z.mod_pos_bound (py_int t) win Hw) as Hmb.
  pose proof (Z.div_mod (py_int t') win ltac:(lia)) as Hdm'.
  pose proof (Z.mod_pos_bound (py_int t') win Hw) as Hmb'.
  assert (Hlt : py_int t' < py_int t + win) by lia.
  apply py_int_lt_inject in Hlt. rewrite inject_Z_plus in Hlt.
  pose proof (py_int_le_self t Ht). lra.
Qed.

Lemma fixed_window_counting_step (w : world) (cache_key : string) (rl : RateLimit)
    (start n : Z) (c : CacheService) :
  0 < requests rl → 0 < window rl →
  healthy w c → (0 <= now w)%Q →
  py_int (now w) `div` window rl * window rl = start →
  data c !! (cache_key +:+ ":" +:+ pretty start) = None →
  (n = 0 ∧ data c !! ("rate_limit:" +:+ cache_key +:+ ":" +:+ pretty start) = None) ∨
  (∃ t, data c !! ("rate_limit:" +:+ cache_key +:+ ":" +:+ pretty start)
        = Some (Entry (VInt n) (after t (window rl))) ∧
        (0 <= t)%Q ∧ py_int t `div` window rl * window rl = start) →
  ∃ c', _check_fixed_window w cache_key rl c
        = Ok ({| allowed := true;
                 remaining := Z.max 0 (requests rl - (n + 1));
                 reset_time := start + window rl;
                 retry_after := None |}, c') ∧
        current_cache c' = current_cache c ∧
        data c' !! (cache_key +:+ ":" +:+ pretty start) = None ∧
        data c' !! ("rate_limit:" +:+ cache_key +:+ ":" +:+ pretty start)
        = Some (Entry (VInt (n + 1)) (after (now w) (window rl))).
Proof.
  intros Hr Hw Hh H0 Hs Hread Hcount. unfold _check_fixed_window.
  destruct (window rl =? 0) eqn:Hz; [lia|].
  rewrite Hs. set (wk := cache_key +:+ ":" +:+ pretty start) in *.
  destruct (cache_get_absent w wk c Hread) as (c1 & Hget & Hd & Hb).
  rewrite Hget. simpl.
  destruct (0 >=? requests rl) eqn:Hge; [lia|].
  assert (Hh1 : healthy w c1).
  { destruct Hh as [Hm|Hf]; [left; congruence | right; exact Hf]. }
  assert (Hold : redis_lookup (now w) ("rate_limit:" +:+ wk) c1 = Some (VInt n) ∨
                 (redis_lookup (now w) ("rate_limit:" +:+ wk) c1 = None ∧ n = 0)).
  { unfold redis_lookup. rewrite Hd.
    destruct Hcount as [[-> Hc]|(t & Hc & Ht & Hst)].
    - right. now rewrite Hc.
    - left. rewrite Hc. unfold live. simpl.
      now rewrite (same_window_live t (now w) (window rl) start). }
  destruct (increment_healthy w wk (window rl) n c1 Hh1 Hw Hold)
    as (c' & Hinc & Hb' & Hk & Hother).
  rewrite Hinc. simpl. eexists. split; [reflexivity|].
  split; [congruence|]. split.
  - rewrite Hother by apply window_key_not_incremented. now rewrite Hd.
  - exact Hk.
Qed.

(** X23: from an empty cache, while no cache call fails, the fixed-window
    checks of one window are all allowed, and the [i]-th of them (from 0)
    reports [max(0, limit - (i + 1))] remaining and the end of the window
    as reset time. *)
Theorem fixed_window_counts_down (b : backend) (cache_key : string)
    (rl : RateLimit) (ws : list world) (start : Z) :
  0 < requests rl → 0 < window rl →
  (∀ w, In w ws →
        healthy w (empty_cache b) ∧ (0 <= now w)%Q ∧
        py_int (now w) `div` window rl * window rl = start) →
  ∃ rs c', run_checks (fun w => _check_fixed_window w cache_key rl) ws
             (empty_cache b) = Ok (rs, c') ∧
           length rs = length ws ∧
           ∀ i r, rs !! i = Some r →
                  r = {| allowed := true;
                         remaining := Z.max 0 (requests rl - (Z.of_nat i + 1));
                         reset_time := start + window rl;
                         retry_after := None |}.
Proof.
  intros Hr Hw Hall.
  assert (Hgen : ∀ (n : nat) (c : CacheService),
            current_cache c = b →
            data c !! (cache_key +:+ ":" +:+ pretty start) = None →
            ((Z.of_nat n = 0 ∧
              data c !! ("rate_limit:" +:+ cache_key +:+ ":" +:+ pretty start) = None) ∨
             (∃ t, data c !! ("rate_limit:" +:+ cache_key +:+ ":" +:+ pretty start)
                   = Some (Entry (VInt (Z.of_nat n)) (after t (window rl))) ∧
                   (0 <= t)%Q ∧ py_int t `div` window rl * window rl = start)) →
            ∃ rs c', run_checks (fun w => _check_fixed_window w cache_key rl) ws c
                     = Ok (rs, c') ∧ length rs = length ws ∧
                     ∀ i r, rs !! i = Some r →
                       r = {| allowed := true;
                              remaining :=
                                Z.max 0 (requests rl - (Z.of_nat (n + i) + 1));
                              reset_time := start + window rl;
                              retry_after := None |}).
  { induction ws as [|w ws IH]; intros n c Hb Hread Hcount.
    - exists [], c. split; [reflexivity|]. split; [reflexivity|].
      intros i r H. destruct i; discriminate H.
    - destruct (Hall w (or_introl eq_refl)) as (Hh & H0 & Hs).
      assert (Hhc : healthy w c).
      { destruct Hh as [Hm|Hf]; [left; simpl in Hm; congruence | right; exact Hf]. }
      destruct (fixed_window_counting_step w cache_key rl start (Z.of_nat n) c
                  Hr Hw Hhc H0 Hs Hread Hcount) as (c1 & Hc & Hb1 & Hread1 & Hk1).
      destruct (IH (fun w0 Hin => Hall w0 (or_intror Hin)) (S n) c1)
        as (rs & c' & Hrun & Hlen & Hres).
      + congruence.
      + exact Hread1.
      + right. exists (now w). rewrite Nat2Z.inj_succ.
        replace (Z.succ (Z.of_nat n)) with (Z.of_nat n + 1) by lia. auto.
      + simpl. rewrite Hc. simpl. rewrite Hrun. simpl.
        eexists _, _. split; [reflexivity|]. split; [simpl; congruence|].
        intros [|i] r H; simpl in H.
        * inversion H; subst. rewrite Nat.add_0_r. reflexivity.
        * rewrite (Hres i r H).
          replace (Z.of_nat (S n + i)) with (Z.of_nat (n + S i)) by lia.
          reflexivity. }
  destruct (Hgen 0%nat (empty_cache b)) as (rs & c' & Hrun & Hlen & Hres).
  - reflexivity.
  - reflexivity.
  - left. split; reflexivity.
  - exists rs, c'. split; [assumption|]. split; [assumption|].
    intros i r H. exact (Hres i r H).
Qed.

Lemma fixed_window_counts_down_witness :
  ∃ rs c', run_checks
             (fun w => _check_fixed_window w "rate_limit:auth:user:alice"
                         (three_per_minute FIXED_WINDOW))
             (replicate 5 (at_time 1000)) (empty_cache InMemoryCache) = Ok (rs, c') ∧
           length rs = 5%nat ∧
           ∀ i r, rs !! i = Some r →
                  r = {| allowed := true;
                         remaining := Z.max 0 (3 - (Z.of_nat i + 1));
                         reset_time := 960 + 60;
                         retry_after := None |}.
Proof.
  refine (fixed_window_counts_down InMemoryCache "rate_limit:auth:user:alice"
            (three_per_minute FIXED_WINDOW) (replicate 5 (at_time 1000)) 960 _ _ _).
  - simpl; lia.
  - simpl; lia.
  - intros w Hin. simpl in Hin.
    destruct Hin as [<-|[<-|[<-|[<-|[<-|[]]]]]];
      (split; [left; reflexivity | split; [unfold Qle; simpl; lia | vm_compute; reflexivity]]).
Defined.
